(** * dkdtree: the fixed-stride point record codec of point.go

    A shallow embedding of [src/point.go] (package dkdtree) and the
    properties of its record format: the writer side ([serialize]), the
    readers ([parsePointHeader], [parsePoint], [parsePointFromReader]) and
    the two value operations on points ([equal], [distanceSquared]).

    Conventions of the embedding:
    - the target is amd64: Go's [int] is 64 bits wide, [uint32] is 32
      bits wide.  Both are carried as [Z] and every operation that can
      wrap has its wrap-around written out.
    - a [float64] is carried as its 64-bit IEEE-754 pattern, which is what
      the codec moves around; comparison and arithmetic go through its
      value as a [spec_float] of binary64, each operation rounded on its
      own (the compiler fuses no multiplication with an addition there).
    - a Go slice is the pair of its visible elements and of the rest of
      its backing array up to the capacity, because Go checks the upper
      bound of [s[:hi]] against the capacity, not the length.
    - a run-time panic is an outcome of its own, different from a
      returned [error]. *)

From Stdlib Require Import ZArith List Lia Bool.
From Stdlib Require String.
Import String.StringSyntax.
Delimit Scope string_scope with string.
From Stdlib Require Import Floats.SpecFloat.
From coqutil Require Import Byte Word.LittleEndianList.
Import ListNotations.
Local Open Scope Z_scope.

(** ** The Go run time: machine integers, panics, slices *)

Module Go.

(** Conversion to [uint32] and arithmetic in [uint32]. *)
Definition uint32 (z : Z) : Z := z mod 2 ^ 32.
Definition uint32_add (a b : Z) : Z := uint32 (a + b).
Definition uint32_mul (a b : Z) : Z := uint32 (a * b).

(** Conversion to [int] (two's complement, 64 bits) and arithmetic in [int]. *)
Definition int (z : Z) : Z := (z + 2 ^ 63) mod 2 ^ 64 - 2 ^ 63.
Definition int_add (a b : Z) : Z := int (a + b).
Definition int_sub (a b : Z) : Z := int (a - b).
Definition int_mul (a b : Z) : Z := int (a * b).

Definition maxInt : Z := 2 ^ 63 - 1.

(** The two run-time faults this file can raise. *)
Inductive panic : Type :=
| IndexOutOfRange
| SliceBoundsOutOfRange.

(** Outcome of running a Go function: it returns, or it panics. *)
Inductive run (A : Type) : Type :=
| Done (a : A)
| Panicked (p : panic).
Arguments Done {A} a.
Arguments Panicked {A} p.

Definition bind {A B} (m : run A) (k : A -> run B) : run B :=
  match m with
  | Done a => k a
  | Panicked p => Panicked p
  end.

(** A slice: [elems] are the [len] visible elements, [slack] is what the
    backing array holds after them, up to the capacity. *)
Record slice (A : Type) : Type := mkSlice { elems : list A; slack : list A }.
Arguments mkSlice {A} elems slack.
Arguments elems {A} s.
Arguments slack {A} s.

Definition nil_slice {A} : slice A := mkSlice [] [].
Definition of_list {A} (l : list A) : slice A := mkSlice l [].

Definition len {A} (s : slice A) : Z := Z.of_nat (length (elems s)).
Definition cap {A} (s : slice A) : Z :=
  Z.of_nat (length (elems s) + length (slack s)).

(** [s[i]]: the index is checked against the length. *)
Definition index {A} (s : slice A) (i : Z) : run A :=
  if (0 <=? i) && (i <? len s) then
    match nth_error (elems s) (Z.to_nat i) with
    | Some a => Done a
    | None => Panicked IndexOutOfRange
    end
  else Panicked IndexOutOfRange.

(** [s[lo:]]: the upper bound defaults to [len(s)], so [lo <= len(s)]. *)
Definition slice_from {A} (s : slice A) (lo : Z) : run (slice A) :=
  if (0 <=? lo) && (lo <=? len s) then
    Done (mkSlice (skipn (Z.to_nat lo) (elems s)) (slack s))
  else Panicked SliceBoundsOutOfRange.

(** [s[:hi]]: the upper bound may reach into the capacity, [hi <= cap(s)]. *)
Definition slice_to {A} (s : slice A) (hi : Z) : run (slice A) :=
  if (0 <=? hi) && (hi <=? cap s) then
    Done (mkSlice (firstn (Z.to_nat hi) (elems s ++ slack s))
                  (skipn (Z.to_nat hi) (elems s ++ slack s)))
  else Panicked SliceBoundsOutOfRange.

End Go.
Import Go.

Notation "x <- m ;; k" := (Go.bind m (fun x => k))
(at level 61, m at next level, right associativity).
Notation "' p <- m ;; k" := (Go.bind m (fun x => let 'p := x in k))
(at level 61, p pattern, m at next level, right associativity).

(** ** float64: bit patterns and their IEEE-754 values *)

Module Float64.

Definition float64 : Type := Z.

Definition prec : Z := 53.
Definition emax : Z := 1024.

(** A well-formed pattern has 64 bits. *)
Definition is_float64 (b : float64) : Prop := 0 <= b < 2 ^ 64.

(** [math.Float64frombits]: sign in bit 63, biased exponent in bits
    52..62, fraction in bits 0..51. *)
Definition value (b : float64) : spec_float :=
  let s := Z.testbit b 63 in
  let e := (b / 2 ^ 52) mod 2 ^ 11 in
  let m := b mod 2 ^ 52 in
  if e =? 0 then
    if m =? 0 then S754_zero s else S754_finite s (Z.to_pos m) (-1074)
  else if e =? 2047 then
    if m =? 0 then S754_infinity s else S754_nan
  else S754_finite s (Z.to_pos (m + 2 ^ 52)) (e - 1075).

Definition isNaN (b : float64) : bool :=
  match value b with S754_nan => true | _ => false end.

(** Neither a NaN nor an infinity. *)
Definition isFinite (b : float64) : bool :=
  match value b with
  | S754_nan | S754_infinity _ => false
  | _ => true
  end.

(** Go's [==] and [!=] on float64 compare IEEE values. *)
Definition eqb (x y : float64) : bool := SFeqb (value x) (value y).
Definition neqb (x y : float64) : bool := negb (eqb x y).

(** Arithmetic, on values, round to nearest even.  The pattern of a NaN
    result is left to the hardware by Go and is not modelled. *)
Definition sub (x y : spec_float) : spec_float := SFsub prec emax x y.
Definition mul (x y : spec_float) : spec_float := SFmul prec emax x y.
Definition add (x y : spec_float) : spec_float := SFadd prec emax x y.

Definition zero : spec_float := S754_zero false.

(** Some patterns used below. *)
Definition pos_zero : float64 := 0.
Definition neg_zero : float64 := 2 ^ 63.
Definition one : float64 := 0x3FF0000000000000.
Definition two : float64 := 0x4000000000000000.
Definition pos_inf : float64 := 0x7FF0000000000000.
Definition quiet_nan : float64 := 0x7FF8000000000000.

End Float64.
Import Float64.

(** ** Errors *)

(** Go's [error] values that occur here: the two sentinels of package io,
  any other failure of a stream, and the errors of the package's class. *)
Inductive error : Type :=
| EOF
| ErrUnexpectedEOF
| ErrStream (msg : String.string)
| errClass_New (format : String.string) (args : list Z)
| errClass_Wrapped (cause : error).

(** Modelled from the spec: the package's error class [errClass], declared
  outside point.go.  [errClass.New] builds the PayloadTooLarge and
  UnsupportedVersion conditions from a format string and its arguments;
  [errClass.Wrap] surfaces a failure of the underlying stream as an
  IOFailure wrapping the original cause, and is nil on a nil error (an
  encoding that wrote every byte succeeds). *)
Definition errClass_Wrap (err : option error) : option error :=
match err with
| Some e => Some (errClass_Wrapped e)
| None => None
end.

(** ** Package io: writers and readers *)

(** [io.Writer]: [Write(p)] returns the number of bytes written and an
    error, and leaves the writer in a new state. *)
Class Writer (W : Type) : Type :=
  { Write : W -> list byte -> W * (Z * option error) }.

(** [io.Reader] under [io.ReadFull(r, buf)] with [len(buf) = n]: the bytes
    that were read into the front of [buf], and the error.  By its
    contract the error is [EOF] only if no byte was read, and
    [ErrUnexpectedEOF] if the stream ended after some but not all of them. *)
Class Reader (R : Type) : Type :=
  { ReadFull : R -> Z -> R * (list byte * option error) }.

(** [bytes.Buffer] as a writer: it appends, and its error is always nil. *)
Definition Buffer : Type := list byte.

#[export] Instance Buffer_Writer : Writer Buffer :=
  { Write := fun b p => (b ++ p, (Z.of_nat (length p), None)) }.

(** A writer that fails as soon as more than [room] bytes were offered to
    it in total (a full device); it writes nothing of the failing call. *)
Record Limited : Type := mkLimited { room : Z; stored : list byte }.

#[export] Instance Limited_Writer : Writer Limited :=
  { Write := fun l p =>
      if Z.of_nat (length p) <=? room l then
        (mkLimited (room l - Z.of_nat (length p)) (stored l ++ p),
         (Z.of_nat (length p), None))
      else (l, (0, Some (ErrStream "no space left on device"%string))) }.

(** A writer that passes every call on to [inner] and keeps, in
    [accepted], the bytes of the calls that returned a nil error: by the
    contract of [io.Writer] those were written in full. *)
Record Recorder (W : Type) : Type :=
  mkRecorder { inner : W; accepted : list byte }.
Arguments mkRecorder {W} inner accepted.
Arguments inner {W} r.
Arguments accepted {W} r.

Definition record {W} (w : W) : Recorder W := mkRecorder w [].

#[export] Instance Recorder_Writer {W} `{Writer W} : Writer (Recorder W) :=
  { Write := fun r p =>
      let '(w', (n, err)) := Write (inner r) p in
      (mkRecorder w' (match err with
                      | None => accepted r ++ p
                      | Some _ => accepted r
                      end), (n, err)) }.

(** [bytes.Reader]: the bytes not read yet. *)
Definition BytesReader : Type := list byte.

#[export] Instance BytesReader_Reader : Reader BytesReader :=
  { ReadFull := fun r n =>
      if n <=? 0 then (r, ([], None))
      else if n <=? Z.of_nat (length r) then
        (skipn (Z.to_nat n) r, (firstn (Z.to_nat n) r, None))
      else match r with
           | [] => ([], ([], Some EOF))
           | _ => ([], (r, Some ErrUnexpectedEOF))
           end }.

(** What a byte array of length [n] holds after [bs] was read into its
    front: the rest keeps the zeroes it was made with. *)
Definition filled (n : nat) (bs : list byte) : list byte :=
  firstn n (bs ++ repeat Byte.x00 (n - length bs)).

(** ** Package encoding/binary, little endian *)

Module binary.

(** [binary.LittleEndian.Uint32(b)]: it touches [b[3]] first. *)
Definition Uint32 (b : slice byte) : run Z :=
  _ <- index b 3 ;;
  Done (le_combine (firstn 4 (elems b))).

(** [binary.LittleEndian.PutUint32]: the four bytes of a [uint32]. *)
Definition uint32_bytes (v : Z) : list byte := le_split 4 v.

(** [math.Float64bits] of each value, eight bytes each: the encoding of a
    [[]float64]. *)
Definition float64s_bytes (fs : list float64) : list byte :=
  flat_map (le_split 8) fs.

(** [binary.Write(w, binary.LittleEndian, data)], given the encoding of
    [data]: one call of [Write], whose error is returned. *)
Definition Write {W} `{Writer W} (w : W) (bs : list byte) : W * option error :=
  let '(w', (_, err)) := Write w bs in (w', err).

End binary.

(** [_, err := w.Write(p)]. *)
Definition Write_err {W} `{Writer W} (w : W) (p : list byte) : W * option error :=
  let '(w', (_, err)) := Write w p in (w', err).

(** [if err != nil { return errClass.Wrap(err) }] after a step on the
    writer, then the rest of the function. *)
Definition or_wrap {W} (step : W * option error) (rest : W -> W * option error)
  : W * option error :=
  let '(w, err) := step in
  match err with
  | Some _ => (w, errClass_Wrap err)
  | None => rest w
  end.

Notation "w <~ step ;; rest" := (or_wrap step (fun w => rest))
  (at level 61, step at next level, right associativity).

(** ** point.go *)

Definition float64Size : Z := 8.
Definition uint32Size : Z := 4.
Definition uint64Size : Z := 8.

Definition pointSize (dims maxDataLen : Z) : Z :=
  int_add (int_add (1 + uint32Size * 3) (int_mul dims float64Size)) maxDataLen.

Record Point : Type := mkPoint { Pos : slice float64; Data : slice byte }.

(** The zero value of [Point]: both slices nil. *)
Definition zeroPoint : Point := mkPoint nil_slice nil_slice.

(** [bytes.Equal]. *)
Fixpoint bytes_Equal (a b : list byte) : bool :=
  match a, b with
  | [], [] => true
  | x :: a', y :: b' => Byte.eqb x y && bytes_Equal a' b'
  | _, _ => false
  end.

(** The loop of [equal], from index [i] on: [Done false] when it returns
    false, [Done true] when it runs to its end. *)
Fixpoint equal_range (i : Z) (pos1 : list float64) (pos2 : slice float64)
  : run bool :=
  match pos1 with
  | [] => Done true
  | f1 :: pos1' =>
      f2 <- index pos2 i ;;
      if neqb f2 f1 then Done false else equal_range (i + 1) pos1' pos2
  end.

Definition equal (p1 p2 : Point) : run bool :=
  if negb (len (Pos p1) =? len (Pos p2)) || negb (len (Data p1) =? len (Data p2))
  then Done false
  else
    same <- equal_range 0 (elems (Pos p1)) (Pos p2) ;;
    if same then Done (bytes_Equal (elems (Data p1)) (elems (Data p2)))
    else Done false.

(** The loop of [distanceSquared], from index [i] on with the running [sum]. *)
Fixpoint distanceSquared_range (i : Z) (pos1 : list float64)
  (pos2 : slice float64) (sum : spec_float) : run spec_float :=
  match pos1 with
  | [] => Done sum
  | v :: pos1' =>
      v2 <- index pos2 i ;;
      let delta := Float64.sub (value v) (value v2) in
      distanceSquared_range (i + 1) pos1' pos2
        (Float64.add sum (Float64.mul delta delta))
  end.

(** The result is given as the IEEE value of the returned [float64]. *)
Definition distanceSquared (p1 p2 : Point) : run spec_float :=
  distanceSquared_range 0 (elems (Pos p1)) (Pos p2) Float64.zero.

Definition serialize {W} `{Writer W} (p : Point) (w : W) (maxDataLen : Z)
  : W * option error :=
  if len (Data p) >? maxDataLen then
    (w, Some (errClass_New
                "data length (%d) greater than max data length (%d)"%string
                [len (Data p); maxDataLen]))
  else
    (* serialization version *)
    w <~ Write_err w [Byte.x00] ;;
    (* number of floating point values *)
    let posLen := uint32 (len (Pos p)) in
    w <~ binary.Write w (binary.uint32_bytes posLen) ;;
    (* number of data bytes *)
    let dataLen := uint32 (len (Data p)) in
    w <~ binary.Write w (binary.uint32_bytes dataLen) ;;
    (* padding *)
    let paddingLen := uint32 (int_sub maxDataLen (len (Data p))) in
    w <~ binary.Write w (binary.uint32_bytes paddingLen) ;;
    (* floating point values *)
    w <~ binary.Write w (binary.float64s_bytes (elems (Pos p))) ;;
    (* data *)
    w <~ Write_err w (elems (Data p)) ;;
    (* padding *)
    let '(w, err) := Write_err w (repeat Byte.x00 (Z.to_nat paddingLen)) in
    (w, errClass_Wrap err).

Definition parsePointHeader (buf : slice byte)
  : run (Z * Z * Z * slice byte * option error) :=
  b0 <- index buf 0 ;;
  if negb (Byte.eqb b0 Byte.x00) then
    Done (0, 0, 0, nil_slice,
          Some (errClass_New "invalid serialization version"%string []))
  else
    buf <- slice_from buf 1 ;;
    dims <- binary.Uint32 buf ;;
    buf <- slice_from buf uint32Size ;;
    datalen <- binary.Uint32 buf ;;
    buf <- slice_from buf uint32Size ;;
    padlen <- binary.Uint32 buf ;;
    buf <- slice_from buf uint32Size ;;
    Done (dims, datalen, padlen, buf, None).

(** The floats held by the first [n] groups of eight bytes of [bs]. *)
Fixpoint float64s_of_bytes (n : nat) (bs : list byte) : list float64 :=
  match n with
  | O => []
  | S n' => le_combine (firstn 8 bs) :: float64s_of_bytes n' (skipn 8 bs)
  end.

(** Modelled from the spec: [readFloats], defined outside point.go.  It
    decodes little-endian doubles, one for every eight bytes of [buf],
    into a fresh slice; on a buffer held in memory it has no failure. *)
Definition readFloats (buf : slice byte) : slice float64 * option error :=
  (of_list (float64s_of_bytes (Nat.div (length (elems buf)) 8) (elems buf)), None).

Definition parsePoint (buf : slice byte)
  : run (Point * slice byte * option error) :=
  '(dims, datalen, padlen, body, err) <- parsePointHeader buf ;;
  match err with
  | Some _ => Done (zeroPoint, nil_slice, err)
  | None =>
      let posBytes := uint32_mul dims float64Size in
      floats <- slice_to body posBytes ;;
      let '(pos, err) := readFloats floats in
      match err with
      | Some _ => Done (mkPoint pos nil_slice, nil_slice, errClass_Wrap err)
      | None =>
          body <- slice_from body posBytes ;;
          data <- slice_to body datalen ;;
          remaining <- slice_from body (uint32_add datalen padlen) ;;
          Done (mkPoint pos data, remaining, None)
      end
  end.

(** [len(header)], the header being a [[1 + 3*uint32Size]byte]. *)
Definition headerLen : Z := 1 + 3 * uint32Size.

(** [len(data)] in [parsePointFromReader]: the size it makes its buffer. *)
Definition recordLen (dims datalen padlen : Z) : Z :=
  int_add (int_add headerLen (int_mul (int dims) float64Size))
          (int (uint32_add datalen padlen)).

Definition parsePointFromReader {R} `{Reader R} (r : R)
  : R * run (Point * Z * option error) :=
  let '(r, (got, err)) := ReadFull r headerLen in
  match err with
  | Some _ => (r, Done (zeroPoint, 0, err))
  | None =>
      let header := filled (Z.to_nat headerLen) got in
      match parsePointHeader (of_list header) with
      | Panicked p => (r, Panicked p)
      | Done (_, _, _, _, Some e) => (r, Done (zeroPoint, 0, Some e))
      | Done (dims, datalen, padlen, _, None) =>
          let n := recordLen dims datalen padlen in
          (* data[len(header):] has n - len(header) bytes *)
          let '(r, (got, err)) := ReadFull r (n - headerLen) in
          match err with
          | Some _ => (r, Done (zeroPoint, 0, err))
          | None =>
              let data := header ++ filled (Z.to_nat (n - headerLen)) got in
              match parsePoint (of_list data) with
              | Panicked p => (r, Panicked p)
              | Done (rv, _, err) =>
                  (r, Done (rv, int (uint32_add datalen padlen), err))
              end
          end
      end
  end.

(** ** Names of the specification *)

(** The error conditions of the specification, as the code builds them. *)
Definition UnsupportedVersion : error :=
  errClass_New "invalid serialization version"%string [].

Definition PayloadTooLarge (dataLen maxDataLen : Z) : error :=
  errClass_New "data length (%d) greater than max data length (%d)"%string
    [dataLen; maxDataLen].

(** The layout of one record: version, the three length fields, the
    coordinates, the payload, the padding. *)
Definition record_bytes (p : Point) (maxDataLen : Z) : list byte :=
  [Byte.x00]
    ++ binary.uint32_bytes (uint32 (len (Pos p)))
    ++ binary.uint32_bytes (uint32 (len (Data p)))
    ++ binary.uint32_bytes (uint32 (int_sub maxDataLen (len (Data p))))
    ++ binary.float64s_bytes (elems (Pos p))
    ++ elems (Data p)
    ++ repeat Byte.x00 (Z.to_nat (uint32 (int_sub maxDataLen (len (Data p))))).

(** The bytes [serialize] leaves in a fresh [bytes.Buffer]. *)
Definition encode (maxDataLen : Z) (p : Point) : list byte :=
  fst (serialize p ([] : Buffer) maxDataLen).

(** [parsePoint] applied [n] times, each time to the remainder the call
    before returned; it stops at the first error. *)
Fixpoint parsePoints (n : nat) (buf : slice byte)
  : run (list Point * slice byte * option error) :=
  match n with
  | O => Done ([], buf, None)
  | S n' =>
      '(p, remaining, err) <- parsePoint buf ;;
      match err with
      | Some _ => Done ([], remaining, err)
      | None =>
          '(ps, remaining', err') <- parsePoints n' remaining ;;
          Done (p :: ps, remaining', err')
      end
  end.

(** Coordinates that are well-formed patterns, and points made of them. *)
Definition wf_point (p : Point) : Prop := Forall is_float64 (elems (Pos p)).

(** No coordinate is a NaN. *)
Definition no_NaN (p : Point) : Prop :=
  Forall (fun x => isNaN x = false) (elems (Pos p)).

(** Every coordinate is a finite number. *)
Definition all_finite (p : Point) : Prop :=
  Forall (fun x => isFinite x = true) (elems (Pos p)).

(** A point [serialize] and [parsePoint] agree on: its lengths fit the
    32-bit fields of the header and the 32-bit arithmetic of the decoder. *)
Definition fits (maxDataLen : Z) (p : Point) : Prop :=
  wf_point p /\ len (Pos p) < 2 ^ 29
  /\ len (Data p) <= maxDataLen /\ maxDataLen < 2 ^ 32.

(** The sum [distanceSquared] accumulates over the pairs of two
    coordinate lists, starting from [sum]. *)
Fixpoint sum_squares (l1 l2 : list float64) (sum : spec_float) : spec_float :=
  match l1, l2 with
  | x :: l1', y :: l2' =>
      let delta := Float64.sub (value x) (value y) in
      sum_squares l1' l2' (Float64.add sum (Float64.mul delta delta))
  | _, _ => sum
  end.

(** [fits], as a test. *)
Definition fitsb (maxDataLen : Z) (p : Point) : bool :=
  forallb (fun b => (0 <=? b) && (b <? 2 ^ 64)) (elems (Pos p))
  && (len (Pos p) <? 2 ^ 29)
  && (len (Data p) <=? maxDataLen)
  && (maxDataLen <? 2 ^ 32).

(** The layout of a header: version 0 and the three length fields. *)
Definition header_bytes (dims datalen padlen : Z) : list byte :=
  [Byte.x00] ++ binary.uint32_bytes dims ++ binary.uint32_bytes datalen
    ++ binary.uint32_bytes padlen.

(** A value that is not a NaN and, unless it is a zero, not negative:
    what a sum of squares is. *)
Definition nonneg_value (v : spec_float) : Prop :=
  match v with
  | S754_nan => False
  | S754_zero _ => True
  | S754_infinity s | S754_finite s _ _ => s = false
  end.

(** The value of a finite float64: a zero or a finite number. *)
Definition finite_value (v : spec_float) : Prop :=
  match v with
  | S754_zero _ | S754_finite _ _ _ => True
  | _ => False
  end.

(** [delta * delta]. *)
Definition square (d : spec_float) : spec_float := Float64.mul d d.

(** ** Further names used by the properties of the record format *)

(** [serialize] of each point in turn into one writer, as a caller that
    stores a dataset does; it stops at the first error. *)
Fixpoint serializeAll {W} `{Writer W} (ps : list Point) (w : W) (maxDataLen : Z)
  : W * option error :=
  match ps with
  | [] => (w, None)
  | p :: ps' =>
      let '(w', err) := serialize p w maxDataLen in
      match err with
      | Some _ => (w', err)
      | None => serializeAll ps' w' maxDataLen
      end
  end.

(** A writer that passes every call on to [traced] and keeps the list of
    the calls made of it: the bytes each was given and the error it
    returned. *)
Record Tracer (W : Type) : Type :=
  mkTracer { traced : W; calls : list (list byte * option error) }.
Arguments mkTracer {W} traced calls.
Arguments traced {W} t.
Arguments calls {W} t.

Definition trace {W} (w : W) : Tracer W := mkTracer w [].

#[export] Instance Tracer_Writer {W} `{Writer W} : Writer (Tracer W) :=
  { Write := fun t p =>
      let '(w', (n, err)) := Write (traced t) p in
      (mkTracer w' (calls t ++ [(p, err)]), (n, err)) }.

(** A call of [Write] that returned a nil error. *)
Definition succeeded (bs : list byte) : list byte * option error := (bs, None).

(** The seven slices [serialize] hands to [Write], in order. *)
Definition record_chunks (p : Point) (maxDataLen : Z) : list (list byte) :=
  [ [Byte.x00];
    binary.uint32_bytes (uint32 (len (Pos p)));
    binary.uint32_bytes (uint32 (len (Data p)));
    binary.uint32_bytes (uint32 (int_sub maxDataLen (len (Data p))));
    binary.float64s_bytes (elems (Pos p));
    elems (Data p);
    repeat Byte.x00 (Z.to_nat (uint32 (int_sub maxDataLen (len (Data p))))) ].

(** The calls a [serialize] has made that was still to write [todo] after
    the calls [done], and the error it returned: every call succeeded and
    there is no error, or the calls stop at the first one that failed and
    the error is the one that call returned, wrapped. *)
Definition stops_at_failure {W} (done todo : list (list byte))
  (res : Tracer W * option error) : Prop :=
  (snd res = None /\ calls (fst res) = map succeeded (done ++ todo))
  \/ (exists pre bs tail cause,
        todo = pre ++ bs :: tail
        /\ snd res = Some (errClass_Wrapped cause)
        /\ calls (fst res) = map succeeded (done ++ pre) ++ [(bs, Some cause)]).

(** The comparison [equal] makes of two coordinate lists of one length. *)
Fixpoint coords_eqb (l1 l2 : list float64) : bool :=
  match l1, l2 with
  | [], [] => true
  | x :: l1', y :: l2' => Float64.eqb y x && coords_eqb l1' l2'
  | _, _ => false
  end.

(** [equal] as a test on the contents of two points. *)
Definition equalb (a b : Point) : bool :=
  (len (Pos a) =? len (Pos b)) && (len (Data a) =? len (Data b))
  && coords_eqb (elems (Pos a)) (elems (Pos b))
  && bytes_Equal (elems (Data a)) (elems (Data b)).

(** [parsePointFromReader] called up to [n] times on one reader, as a
    caller that scans a file of records does; it stops at the first error
    and returns it with the points read before, each with the
    [maxDataLen] that was reported for it. *)
Fixpoint parsePointsFromReader {R} `{Reader R} (n : nat) (r : R)
  : R * run (list (Point * Z) * option error) :=
  match n with
  | O => (r, Done ([], None))
  | S n' =>
      let '(r', res) := parsePointFromReader r in
      match res with
      | Panicked p => (r', Panicked p)
      | Done (_, _, Some e) => (r', Done ([], Some e))
      | Done (q, m, None) =>
          let '(r'', res') := parsePointsFromReader n' r' in
          match res' with
          | Panicked p => (r'', Panicked p)
          | Done (qs, err) => (r'', Done ((q, m) :: qs, err))
          end
      end
  end.

(** ** The Go run time: lemmas *)

Lemma len_nonneg {A} (s : slice A) : 0 <= len s.
Proof. unfold len. lia. Qed.

Lemma len_mkSlice {A} (l sl : list A) : len (mkSlice l sl) = Z.of_nat (length l).
Proof. reflexivity. Qed.

Lemma uint32_small z : 0 <= z < 2 ^ 32 -> uint32 z = z.
Proof. intros Hz. unfold uint32. now apply Z.mod_small. Qed.

Lemma uint32_range z : 0 <= uint32 z < 2 ^ 32.
Proof. unfold uint32. apply Z.mod_pos_bound. lia. Qed.

Lemma int_small z : - 2 ^ 63 <= z < 2 ^ 63 -> int z = z.
Proof. intros Hz. unfold int. rewrite Z.mod_small; lia. Qed.

Lemma index_app {A} (pre : list A) x l sl :
  index (mkSlice (pre ++ x :: l) sl) (Z.of_nat (length pre)) = Done x.
Proof.
  unfold index. rewrite len_mkSlice, length_app. cbn [length elems].
  replace (0 <=? Z.of_nat (length pre)) with true by (symmetry; apply Z.leb_le; lia).
  replace (Z.of_nat (length pre) <? Z.of_nat (length pre + S (length l))) with true
    by (symmetry; apply Z.ltb_lt; lia).
  cbn [andb]. rewrite Nat2Z.id, nth_error_app2, Nat.sub_diag by lia. reflexivity.
Qed.

Lemma index_head {A} (x : A) l sl : index (mkSlice (x :: l) sl) 0 = Done x.
Proof. exact (index_app [] x l sl). Qed.

Lemma index_out {A} (s : slice A) i : len s <= i -> index s i = Panicked IndexOutOfRange.
Proof.
  intros Hi. unfold index.
  replace (i <? len s) with false by (symmetry; apply Z.ltb_ge; lia).
  now rewrite andb_false_r.
Qed.

Lemma index_in {A} (s : slice A) i :
  0 <= i < len s -> exists x, index s i = Done x /\ nth_error (elems s) (Z.to_nat i) = Some x.
Proof.
  intros Hi. unfold index, len in *.
  replace (0 <=? i) with true by (symmetry; apply Z.leb_le; lia).
  replace (i <? Z.of_nat (length (elems s))) with true by (symmetry; apply Z.ltb_lt; lia).
  cbn [andb]. destruct (nth_error (elems s) (Z.to_nat i)) as [x|] eqn:E.
  - now exists x.
  - apply nth_error_None in E. lia.
Qed.

Lemma slice_from_app {A} (h t sl : list A) :
  slice_from (mkSlice (h ++ t) sl) (Z.of_nat (length h)) = Done (mkSlice t sl).
Proof.
  unfold slice_from. rewrite len_mkSlice, length_app. cbn [elems slack].
  replace (0 <=? Z.of_nat (length h)) with true by (symmetry; apply Z.leb_le; lia).
  replace (Z.of_nat (length h) <=? Z.of_nat (length h + length t)) with true
    by (symmetry; apply Z.leb_le; lia).
  cbn [andb]. rewrite Nat2Z.id, skipn_app, Nat.sub_diag, skipn_all. reflexivity.
Qed.

Lemma slice_to_app {A} (h t sl : list A) :
  slice_to (mkSlice (h ++ t) sl) (Z.of_nat (length h)) = Done (mkSlice h (t ++ sl)).
Proof.
  unfold slice_to, cap. cbn [elems slack]. rewrite length_app.
  replace (0 <=? Z.of_nat (length h)) with true by (symmetry; apply Z.leb_le; lia).
  replace (Z.of_nat (length h) <=? Z.of_nat (length h + length t + length sl)) with true
    by (symmetry; apply Z.leb_le; lia).
  cbn [andb]. rewrite Nat2Z.id, <- app_assoc.
  rewrite firstn_app, skipn_app, Nat.sub_diag, firstn_all, skipn_all.
  cbn [firstn skipn]. now rewrite app_nil_r.
Qed.

Lemma slice_from_out {A} (s : slice A) lo :
  len s < lo -> slice_from s lo = Panicked SliceBoundsOutOfRange.
Proof.
  intros H. unfold slice_from.
  replace (lo <=? len s) with false by (symmetry; apply Z.leb_gt; lia).
  now rewrite andb_false_r.
Qed.

Lemma slice_from_in {A} (s : slice A) lo :
  0 <= lo <= len s ->
  slice_from s lo = Done (mkSlice (skipn (Z.to_nat lo) (elems s)) (slack s)).
Proof.
  intros H. unfold slice_from.
  replace (0 <=? lo) with true by (symmetry; apply Z.leb_le; lia).
  replace (lo <=? len s) with true by (symmetry; apply Z.leb_le; lia).
  reflexivity.
Qed.

Lemma slice_to_cases {A} (s : slice A) hi :
  slice_to s hi = Panicked SliceBoundsOutOfRange
  \/ exists s', slice_to s hi = Done s'.
Proof.
  unfold slice_to. destruct ((0 <=? hi) && (hi <=? cap s)); eauto.
Qed.
(** ** Point equality *)

Lemma bytes_Equal_eq a : forall b, bytes_Equal a b = true <-> a = b.
Proof.
  induction a as [|x a IH]; intros [|y b]; cbn [bytes_Equal]; try (split; congruence).
  rewrite andb_true_iff, IH. split.
  - intros [Hxy ->]. apply Byte.byte_dec_bl in Hxy. now subst.
  - intros [= -> ->]. split; [apply Byte.byte_dec_lb|]; reflexivity.
Qed.

Lemma equal_range_spec l1 : forall pre l2 sl,
  length l1 = length l2 ->
  exists r,
    equal_range (Z.of_nat (length pre)) l1 (mkSlice (pre ++ l2) sl) = Done r
    /\ (r = true <-> Forall2 (fun x y => Float64.eqb y x = true) l1 l2).
Proof.
  induction l1 as [|x l1 IH]; intros pre [|y l2] sl Hlen; cbn [length] in Hlen;
    try discriminate.
  - exists true. cbn [equal_range]. split; [reflexivity|]. split; auto.
  - cbn [equal_range]. rewrite index_app. cbn [bind].
    unfold neqb. destruct (Float64.eqb y x) eqn:E; cbn [negb].
    + destruct (IH (pre ++ [y]) l2 sl) as (r & Hr & Hiff); [lia|].
      exists r. rewrite <- app_assoc in Hr. cbn [app] in Hr.
      rewrite length_app in Hr. cbn [length] in Hr.
      replace (Z.of_nat (length pre) + 1) with (Z.of_nat (length pre + 1)) by lia.
      split; [exact Hr|]. rewrite Hiff. split.
      * intros H. now constructor.
      * intros H. now inversion H.
    + exists false. split; [reflexivity|]. split; [discriminate|].
      intros H. inversion H; subst. congruence.
Qed.

(** C7, as the code has it: [equal] always returns, and it returns true
    exactly when the two points have as many coordinates and as many data
    bytes, every pair of coordinates compares equal under Go's [==] on
    float64 (the IEEE-754 comparison: +0 equals -0, a NaN equals nothing),
    and the data bytes are the same. *)
Theorem equal_iff_ieee (a b : Point) :
  exists r,
    equal a b = Done r
    /\ (r = true <->
        len (Pos a) = len (Pos b) /\ len (Data a) = len (Data b)
        /\ Forall2 (fun x y => Float64.eqb y x = true) (elems (Pos a)) (elems (Pos b))
        /\ elems (Data a) = elems (Data b)).
Proof.
  unfold equal.
  destruct (len (Pos a) =? len (Pos b)) eqn:EP; cbn [negb orb].
  2:{ exists false. split; [reflexivity|]. apply Z.eqb_neq in EP.
      split; [discriminate|]. intros (H & _). contradiction. }
  destruct (len (Data a) =? len (Data b)) eqn:ED; cbn [negb].
  2:{ exists false. split; [reflexivity|]. apply Z.eqb_neq in ED.
      split; [discriminate|]. intros (_ & H & _). contradiction. }
  apply Z.eqb_eq in EP. apply Z.eqb_eq in ED.
  destruct b as [[pb sb] db]. cbn [Pos Data elems] in *.
  destruct (equal_range_spec (elems (Pos a)) [] pb sb) as (r & Hr & Hiff).
  { unfold len in EP. cbn [elems] in EP. lia. }
  cbn [app length] in Hr. change (Z.of_nat 0) with 0 in Hr. rewrite Hr. cbn [bind].
  destruct r.
  - eexists. split; [reflexivity|]. rewrite bytes_Equal_eq.
    split; [intros H | intros (_ & _ & _ & H); exact H].
    repeat split; auto. now apply Hiff.
  - exists false. split; [reflexivity|]. split; [discriminate|].
    intros (_ & _ & H & _). apply Hiff in H. discriminate.
Qed.

(** The claim C7 as the specification words it fails: +0 and -0 differ in
    their sign bit and [equal] returns true on them. *)
Lemma equal_not_bitwise :
  equal (mkPoint (of_list [pos_zero]) nil_slice)
        (mkPoint (of_list [neg_zero]) nil_slice) = Done true
  /\ elems (Pos (mkPoint (of_list [pos_zero]) nil_slice))
     <> elems (Pos (mkPoint (of_list [neg_zero]) nil_slice)).
Proof. split; [vm_compute; reflexivity | discriminate]. Qed.

(** And the other way round: a NaN has the same bits as itself, and
    [equal] returns false on it. *)
Lemma equal_NaN_irreflexive :
  equal (mkPoint (of_list [quiet_nan]) nil_slice)
        (mkPoint (of_list [quiet_nan]) nil_slice) = Done false.
Proof. vm_compute. reflexivity. Qed.
(** ** distanceSquared and the lengths of its arguments *)

Lemma distanceSquared_range_within l1 : forall pre l2 sl sum,
  (length l1 <= length l2)%nat ->
  distanceSquared_range (Z.of_nat (length pre)) l1 (mkSlice (pre ++ l2) sl) sum
  = Done (sum_squares l1 l2 sum).
Proof.
  induction l1 as [|x l1 IH]; intros pre l2 sl sum Hlen.
  - destruct l2; reflexivity.
  - destruct l2 as [|y l2]; cbn [length] in Hlen; [lia|].
    cbn [distanceSquared_range sum_squares]. rewrite index_app. cbn [bind].
    specialize (IH (pre ++ [y]) l2 sl). rewrite <- app_assoc in IH. cbn [app] in IH.
    rewrite length_app in IH. cbn [length] in IH.
    replace (Z.of_nat (length pre) + 1) with (Z.of_nat (length pre + 1)) by lia.
    apply IH. lia.
Qed.

Lemma distanceSquared_range_beyond l1 : forall pre l2 sl sum,
  (length l2 < length l1)%nat ->
  distanceSquared_range (Z.of_nat (length pre)) l1 (mkSlice (pre ++ l2) sl) sum
  = Panicked IndexOutOfRange.
Proof.
  induction l1 as [|x l1 IH]; intros pre l2 sl sum Hlen; cbn [length] in Hlen; [lia|].
  cbn [distanceSquared_range]. destruct l2 as [|y l2].
  - rewrite index_out; [reflexivity|]. rewrite len_mkSlice, app_nil_r. lia.
  - rewrite index_app. cbn [bind length] in *.
    specialize (IH (pre ++ [y]) l2 sl). rewrite <- app_assoc in IH. cbn [app] in IH.
    rewrite length_app in IH. cbn [length] in IH.
    replace (Z.of_nat (length pre) + 1) with (Z.of_nat (length pre + 1)) by lia.
    apply IH. lia.
Qed.

Lemma sum_squares_firstn l1 : forall l2 sum,
  sum_squares l1 (firstn (length l1) l2) sum = sum_squares l1 l2 sum.
Proof.
  induction l1 as [|x l1 IH]; intros [|y l2] sum; cbn [length firstn sum_squares];
    auto.
Qed.

Lemma distanceSquared_same_length (a b : Point) :
  len (Pos a) = len (Pos b) ->
  distanceSquared a b = Done (sum_squares (elems (Pos a)) (elems (Pos b)) Float64.zero).
Proof.
  intros H. unfold distanceSquared. destruct b as [[pb sb] db].
  cbn [Pos elems] in *. unfold len in H. cbn [elems] in H.
  apply (distanceSquared_range_within (elems (Pos a)) [] pb sb). lia.
Qed.

(** C8, as the code has it: [distanceSquared] compares no lengths.  When
    [b] has more coordinates than [a] it returns the sum over the first
    [len(a.Pos)] pairs, the same as on [b] cut to that length; when [b]
    has fewer it panics with an index out of range. *)
Theorem distanceSquared_unequal_lengths (a b : Point) :
  (len (Pos a) < len (Pos b) ->
     distanceSquared a b
     = Done (sum_squares (elems (Pos a))
               (firstn (length (elems (Pos a))) (elems (Pos b))) Float64.zero))
  /\ (len (Pos b) < len (Pos a) ->
     distanceSquared a b = Panicked IndexOutOfRange).
Proof.
  unfold distanceSquared, len. destruct b as [[pb sb] db]. cbn [Pos elems].
  split; intros H.
  - rewrite sum_squares_firstn.
    apply (distanceSquared_range_within (elems (Pos a)) [] pb sb). lia.
  - apply (distanceSquared_range_beyond (elems (Pos a)) [] pb sb). lia.
Qed.

(** C8 as the specification words it fails: with one coordinate against
    two, [distanceSquared] returns a distance and reports nothing. *)
Lemma distanceSquared_truncates :
  len (Pos (mkPoint (of_list [one]) nil_slice))
  <> len (Pos (mkPoint (of_list [one; two]) nil_slice))
  /\ distanceSquared (mkPoint (of_list [one]) nil_slice)
                     (mkPoint (of_list [one; two]) nil_slice)
     = Done (S754_zero false).
Proof. split; [discriminate | vm_compute; reflexivity]. Qed.

(** The other direction of C8 on an input: two coordinates against one. *)
Lemma distanceSquared_panics :
  distanceSquared (mkPoint (of_list [one; two]) nil_slice)
                  (mkPoint (of_list [one]) nil_slice)
  = Panicked IndexOutOfRange.
Proof.
  apply (distanceSquared_unequal_lengths
           (mkPoint (of_list [one; two]) nil_slice) (mkPoint (of_list [one]) nil_slice)).
  vm_compute. reflexivity.
Defined.
(** ** The version byte *)

Lemma filled_head n b got : filled (S n) (b :: got) = b :: filled n got.
Proof. reflexivity. Qed.

Lemma parsePointHeader_bad_version b rest sl :
  b <> Byte.x00 ->
  parsePointHeader (mkSlice (b :: rest) sl)
  = Done (0, 0, 0, nil_slice, Some UnsupportedVersion).
Proof.
  intros Hb. unfold parsePointHeader. rewrite index_head. cbn [bind].
  destruct (Byte.eqb b Byte.x00) eqn:E.
  - apply Byte.byte_dec_bl in E. contradiction.
  - reflexivity.
Qed.

(** C5: on a buffer of at least 13 bytes whose first byte is not 0 the
    header decoder returns the invalid-version error, and so do
    [parsePoint] on that buffer and [parsePointFromReader] on any reader
    whose first 13 bytes are the front of that buffer. *)
Theorem version_guard (buf : slice byte) (b : byte) (rest : list byte)
  (Hbuf : elems buf = b :: rest) (Hlen : 13 <= len buf) (Hb : b <> Byte.x00) :
  parsePointHeader buf = Done (0, 0, 0, nil_slice, Some UnsupportedVersion)
  /\ parsePoint buf = Done (zeroPoint, nil_slice, Some UnsupportedVersion)
  /\ forall R (HR : Reader R) (r r' : R),
       ReadFull r headerLen = (r', (firstn 13 (elems buf), None)) ->
       parsePointFromReader r = (r', Done (zeroPoint, 0, Some UnsupportedVersion)).
Proof.
  destruct buf as [l sl]. cbn [elems] in Hbuf. subst l.
  assert (H1 := parsePointHeader_bad_version b rest sl Hb).
  split; [exact H1|]. split.
  - unfold parsePoint. rewrite H1. reflexivity.
  - intros R HR r r' Hread. unfold parsePointFromReader. rewrite Hread.
    cbn [elems]. change (Z.to_nat headerLen) with 13%nat.
    change (firstn 13 (b :: rest)) with (b :: firstn 12 rest).
    rewrite filled_head. unfold of_list.
    rewrite (parsePointHeader_bad_version b _ [] Hb). reflexivity.
Qed.

Lemma version_guard_example :
  parsePointHeader (of_list (Byte.x01 :: repeat Byte.x00 12))
  = Done (0, 0, 0, nil_slice, Some UnsupportedVersion)
  /\ parsePoint (of_list (Byte.x01 :: repeat Byte.x00 12))
     = Done (zeroPoint, nil_slice, Some UnsupportedVersion)
  /\ parsePointFromReader (Byte.x01 :: repeat Byte.x00 12 : BytesReader)
     = ([], Done (zeroPoint, 0, Some UnsupportedVersion)).
Proof.
  destruct (version_guard (of_list (Byte.x01 :: repeat Byte.x00 12)) Byte.x01
              (repeat Byte.x00 12) eq_refl) as (H1 & H2 & H3).
  - vm_compute. discriminate.
  - discriminate.
  - split; [exact H1|]. split; [exact H2|].
    apply (H3 BytesReader BytesReader_Reader). reflexivity.
Defined.
(** ** The payload bound of serialize *)

Lemma or_wrap_not_New {W} (step : W * option error) rest f a :
  (forall w, snd (rest w) <> Some (errClass_New f a)) ->
  snd (or_wrap step rest) <> Some (errClass_New f a).
Proof.
  intros Hrest. unfold or_wrap. destruct step as [w [e|]]; cbn [snd errClass_Wrap].
  - discriminate.
  - apply Hrest.
Qed.

Lemma serialize_within_not_New {W} `{Writer W} (p : Point) (w : W) maxDataLen f a :
  len (Data p) <= maxDataLen ->
  snd (serialize p w maxDataLen) <> Some (errClass_New f a).
Proof.
  intros Hle. unfold serialize.
  destruct (Z.gtb_spec (len (Data p)) maxDataLen) as [Hgt|_]; [lia|].
  repeat (apply or_wrap_not_New; intros ?).
  destruct (Write_err _ _) as [w' [e|]]; cbn [snd errClass_Wrap]; discriminate.
Qed.

(** C4: [serialize] returns the data-length error exactly when the data is
    longer than [maxDataLen], and then it returns it with the writer as it
    was given: no [Write] was called. *)
Theorem serialize_payload_guard {W} `{Writer W} (p : Point) (w : W) (maxDataLen : Z) :
  ((exists f a, snd (serialize p w maxDataLen) = Some (errClass_New f a))
   <-> len (Data p) > maxDataLen)
  /\ (len (Data p) > maxDataLen ->
      serialize p w maxDataLen
      = (w, Some (PayloadTooLarge (len (Data p)) maxDataLen))).
Proof.
  assert (Hgt : len (Data p) > maxDataLen ->
                serialize p w maxDataLen
                = (w, Some (PayloadTooLarge (len (Data p)) maxDataLen))).
  { intros Hgt. unfold serialize.
    destruct (Z.gtb_spec (len (Data p)) maxDataLen) as [_|Hle]; [reflexivity|lia]. }
  split; [split|exact Hgt].
  - intros (f & a & Hfa).
    destruct (Z_gt_le_dec (len (Data p)) maxDataLen) as [Hgt'|Hle]; [exact Hgt'|].
    exfalso. exact (serialize_within_not_New p w maxDataLen f a Hle Hfa).
  - intros Hgt'. rewrite (Hgt Hgt'). cbn [snd]. unfold PayloadTooLarge. eauto.
Qed.

(** C4 on an input: three bytes of data against a bound of two, on a
    recording writer that has accepted nothing: nothing is accepted after. *)
Lemma serialize_payload_guard_example :
  serialize (mkPoint (of_list [one]) (of_list [Byte.x01; Byte.x02; Byte.x03]))
            (record ([] : Buffer)) 2
  = (record ([] : Buffer), Some (PayloadTooLarge 3 2)).
Proof.
  apply (serialize_payload_guard
           (mkPoint (of_list [one]) (of_list [Byte.x01; Byte.x02; Byte.x03]))
           (record ([] : Buffer)) 2).
  reflexivity.
Defined.
(** ** What serialize writes *)

Lemma gtb_le_false a b : a <= b -> (a >? b) = false.
Proof. intros H. destruct (Z.gtb_spec a b); [lia|reflexivity]. Qed.

Lemma serialize_Buffer (p : Point) (b : Buffer) (maxDataLen : Z) :
  len (Data p) <= maxDataLen ->
  serialize p b maxDataLen = (b ++ record_bytes p maxDataLen, None).
Proof.
  intros Hle. unfold serialize. rewrite (gtb_le_false _ _ Hle).
  unfold or_wrap, Write_err, binary.Write, record_bytes.
  cbn [Write Buffer_Writer errClass_Wrap].
  now rewrite <- !app_assoc.
Qed.

Lemma encode_record_bytes (p : Point) (maxDataLen : Z) :
  len (Data p) <= maxDataLen -> encode maxDataLen p = record_bytes p maxDataLen.
Proof. intros Hle. unfold encode. now rewrite serialize_Buffer. Qed.

Lemma or_wrap_success {W} (step : W * option error) rest w' :
  or_wrap step rest = (w', None) ->
  exists w1, step = (w1, None) /\ rest w1 = (w', None).
Proof.
  unfold or_wrap. destruct step as [w1 [e|]]; cbn [errClass_Wrap].
  - discriminate.
  - intros Hrest. now exists w1.
Qed.

Lemma Write_err_Recorder_success {W} `{Writer W} (r r' : Recorder W) bs :
  Write_err r bs = (r', None) -> accepted r' = accepted r ++ bs.
Proof.
  unfold Write_err. cbn [Write Recorder_Writer].
  destruct (Write (inner r) bs) as [w1 [n [e|]]]; intros [= <-]; reflexivity.
Qed.

Lemma serialize_Recorder {W} `{Writer W} (p : Point) (r r' : Recorder W) maxDataLen :
  len (Data p) <= maxDataLen ->
  serialize p r maxDataLen = (r', None) ->
  accepted r' = accepted r ++ record_bytes p maxDataLen.
Proof.
  intros Hle. unfold serialize. rewrite (gtb_le_false _ _ Hle). intros Hs.
  apply or_wrap_success in Hs. destruct Hs as (r1 & H1 & Hs).
  apply or_wrap_success in Hs. destruct Hs as (r2 & H2 & Hs).
  apply or_wrap_success in Hs. destruct Hs as (r3 & H3 & Hs).
  apply or_wrap_success in Hs. destruct Hs as (r4 & H4 & Hs).
  apply or_wrap_success in Hs. destruct Hs as (r5 & H5 & Hs).
  apply or_wrap_success in Hs. destruct Hs as (r6 & H6 & Hs).
  destruct (Write_err r6 _) as [r7 [e|]] eqn:H7; cbn [errClass_Wrap] in Hs;
    [discriminate|]. injection Hs as <-.
  apply Write_err_Recorder_success in H1, H6, H7.
  apply (Write_err_Recorder_success r1 r2) in H2.
  apply (Write_err_Recorder_success r2 r3) in H3.
  apply (Write_err_Recorder_success r3 r4) in H4.
  apply (Write_err_Recorder_success r4 r5) in H5.
  rewrite H7, H6, H5, H4, H3, H2, H1. unfold record_bytes.
  now rewrite <- !app_assoc.
Qed.

Lemma length_float64s_bytes fs :
  length (binary.float64s_bytes fs) = (8 * length fs)%nat.
Proof.
  unfold binary.float64s_bytes. induction fs as [|f fs IH]; [reflexivity|].
  cbn [flat_map]. rewrite length_app, length_le_split, IH. cbn [length]. lia.
Qed.

Lemma length_record_bytes (p : Point) (maxDataLen : Z) :
  Z.of_nat (length (record_bytes p maxDataLen))
  = 1 + 12 + len (Pos p) * 8 + len (Data p)
    + uint32 (int_sub maxDataLen (len (Data p))).
Proof.
  unfold record_bytes, binary.uint32_bytes, len.
  rewrite !length_app, !length_le_split, length_float64s_bytes, repeat_length.
  cbn [length]. pose proof (uint32_range (int_sub maxDataLen (len (Data p)))).
  unfold len in *. lia.
Qed.

Lemma padding_small (dataLen maxDataLen : Z) :
  0 <= dataLen <= maxDataLen -> maxDataLen - dataLen < 2 ^ 32 ->
  uint32 (int_sub maxDataLen dataLen) = maxDataLen - dataLen.
Proof.
  intros H1 H2. unfold int_sub. rewrite int_small by lia. apply uint32_small. lia.
Qed.

(** C3, as the code has it: when the padding [maxDataLen - len(Data)]
    fits its 32-bit header field and the stride fits an [int], a
    [serialize] that returns no error has written exactly
    [1 + 12 + D*8 + maxDataLen] bytes, whatever the writer and the length
    of the data, and that is [pointSize(D, maxDataLen)]. *)
Theorem serialize_constant_stride {W} `{Writer W} (p : Point) (w : W)
  (maxDataLen : Z) (r' : Recorder W)
  (Hle : len (Data p) <= maxDataLen)
  (Hpad : maxDataLen - len (Data p) < 2 ^ 32)
  (Hint : 1 + 12 + len (Pos p) * 8 + maxDataLen <= maxInt)
  (Hok : serialize p (record w) maxDataLen = (r', None)) :
  Z.of_nat (length (accepted r')) = 1 + 12 + len (Pos p) * 8 + maxDataLen
  /\ Z.of_nat (length (accepted r')) = pointSize (len (Pos p)) maxDataLen.
Proof.
  rewrite (serialize_Recorder p (record w) r' maxDataLen Hle Hok).
  cbn [record accepted app]. rewrite length_record_bytes.
  pose proof (len_nonneg (Pos p)). pose proof (len_nonneg (Data p)).
  rewrite padding_small by lia.
  unfold pointSize, int_add, int_mul, float64Size, uint32Size, maxInt in *.
  rewrite (int_small (len (Pos p) * 8)) by lia.
  rewrite (int_small (1 + 4 * 3 + _)) by lia.
  rewrite int_small by lia. lia.
Qed.

(** C3 on the scenario of the specification: two coordinates, two bytes
    of data, [maxDataLen = 4], 33 bytes. *)
Lemma serialize_constant_stride_example :
  Z.of_nat (length (accepted (fst (serialize
      (mkPoint (of_list [one; two]) (of_list [Byte.xaa; Byte.xbb]))
      (record ([] : Buffer)) 4)))) = 1 + 12 + 2 * 8 + 4
  /\ Z.of_nat (length (accepted (fst (serialize
      (mkPoint (of_list [one; two]) (of_list [Byte.xaa; Byte.xbb]))
      (record ([] : Buffer)) 4)))) = pointSize 2 4.
Proof.
  apply (serialize_constant_stride
           (mkPoint (of_list [one; two]) (of_list [Byte.xaa; Byte.xbb]))
           ([] : Buffer) 4).
  - vm_compute. discriminate.
  - vm_compute. reflexivity.
  - vm_compute. discriminate.
  - vm_compute. reflexivity.
Defined.

(** C3 as the specification words it fails once the padding no longer
    fits 32 bits: an empty point with [maxDataLen = 2^32] is given a
    padding length of 0 and its record has 13 bytes, not [13 + 2^32]. *)
Lemma serialize_stride_wraps :
  len (Data zeroPoint) <= 2 ^ 32
  /\ serialize zeroPoint (record ([] : Buffer)) (2 ^ 32)
     = (mkRecorder (repeat Byte.x00 13) (repeat Byte.x00 13), None)
  /\ Z.of_nat (length (repeat Byte.x00 13)) <> 1 + 12 + len (Pos zeroPoint) * 8 + 2 ^ 32.
Proof.
  split; [vm_compute; discriminate|]. split; [vm_compute; reflexivity|].
  vm_compute. discriminate.
Qed.

(** A write that fails in the middle of a record: on a device with room
    for 20 bytes the header goes through, the coordinates do not, and
    [serialize] returns the wrapped failure with 13 bytes written. *)
Lemma serialize_device_full :
  serialize (mkPoint (of_list [one; two]) (of_list [Byte.xaa; Byte.xbb]))
            (mkLimited 20 []) 4
  = (mkLimited 7 (header_bytes 2 2 2),
     Some (errClass_Wrapped (ErrStream "no space left on device"%string))).
Proof. vm_compute. reflexivity. Qed.
(** ** What parsePoint reads back *)

Lemma Uint32_encoded v t sl :
  0 <= v < 2 ^ 32 ->
  binary.Uint32 (mkSlice (binary.uint32_bytes v ++ t) sl) = Done v.
Proof.
  intros Hv. unfold binary.Uint32, binary.uint32_bytes. cbn [elems].
  rewrite firstn_app, length_le_split, Nat.sub_diag, firstn_O, app_nil_r.
  rewrite firstn_all2 by (rewrite length_le_split; lia).
  rewrite le_combine_split. change (Z.of_nat 4 * 8) with 32.
  rewrite Z.mod_small by exact Hv.
  cbv [le_split]. cbn [app].
  exact (f_equal (fun r => bind r (fun _ => Done v))
           (index_app [_; _; _] _ t sl)).
Qed.

Lemma slice_from_tail {A} (x : A) t sl :
  slice_from (mkSlice (x :: t) sl) 1 = Done (mkSlice t sl).
Proof. exact (slice_from_app [x] t sl). Qed.

Lemma length_uint32_bytes v : length (binary.uint32_bytes v) = 4%nat.
Proof. apply length_le_split. Qed.

Lemma slice_from_uint32 v t sl :
  slice_from (mkSlice (binary.uint32_bytes v ++ t) sl) uint32Size
  = Done (mkSlice t sl).
Proof.
  change uint32Size with (Z.of_nat 4). rewrite <- (length_uint32_bytes v).
  apply slice_from_app.
Qed.

Lemma parsePointHeader_encoded v1 v2 v3 body sl :
  0 <= v1 < 2 ^ 32 -> 0 <= v2 < 2 ^ 32 -> 0 <= v3 < 2 ^ 32 ->
  parsePointHeader
    (mkSlice ([Byte.x00] ++ binary.uint32_bytes v1 ++ binary.uint32_bytes v2
                ++ binary.uint32_bytes v3 ++ body) sl)
  = Done (v1, v2, v3, mkSlice body sl, None).
Proof.
  intros H1 H2 H3. unfold parsePointHeader.
  cbn [app]. rewrite index_head. cbn [bind Byte.eqb negb].
  change (Byte.eqb Byte.x00 Byte.x00) with true. cbn [negb].
  rewrite slice_from_tail. cbn [bind].
  rewrite Uint32_encoded by exact H1. cbn [bind].
  rewrite slice_from_uint32. cbn [bind].
  rewrite Uint32_encoded by exact H2. cbn [bind].
  rewrite slice_from_uint32. cbn [bind].
  rewrite Uint32_encoded by exact H3. cbn [bind].
  rewrite slice_from_uint32. reflexivity.
Qed.

Lemma float64s_of_bytes_encoded fs : forall t,
  Forall is_float64 fs ->
  float64s_of_bytes (length fs) (binary.float64s_bytes fs ++ t) = fs.
Proof.
  unfold binary.float64s_bytes.
  induction fs as [|f fs IH]; intros t Hwf; [reflexivity|].
  inversion Hwf as [|? ? Hf Hfs]; subst.
  cbn [length float64s_of_bytes flat_map]. rewrite <- app_assoc.
  rewrite firstn_app, length_le_split, Nat.sub_diag, firstn_O, app_nil_r.
  rewrite firstn_all2 by (rewrite length_le_split; lia).
  rewrite skipn_app, length_le_split, Nat.sub_diag, skipn_O.
  rewrite skipn_all2 by (rewrite length_le_split; lia). cbn [app].
  rewrite le_combine_split. change (Z.of_nat 8 * 8) with 64.
  rewrite Z.mod_small by exact Hf. now rewrite IH.
Qed.

Lemma readFloats_encoded fs sl :
  Forall is_float64 fs ->
  readFloats (mkSlice (binary.float64s_bytes fs) sl) = (of_list fs, None).
Proof.
  intros Hwf. unfold readFloats. cbn [elems].
  rewrite length_float64s_bytes, Nat.mul_comm, Nat.div_mul by discriminate.
  rewrite <- (app_nil_r (binary.float64s_bytes fs)).
  now rewrite float64s_of_bytes_encoded.
Qed.

Lemma parsePoint_encoded (p : Point) (maxDataLen : Z) (rest sl : list byte) :
  fits maxDataLen p ->
  parsePoint (mkSlice (record_bytes p maxDataLen ++ rest) sl)
  = Done (mkPoint (of_list (elems (Pos p)))
            (mkSlice (elems (Data p))
               (repeat Byte.x00 (Z.to_nat (maxDataLen - len (Data p))) ++ rest ++ sl)),
          mkSlice rest sl, None).
Proof.
  intros (Hwf & Hdims & Hle & Hmax).
  pose proof (len_nonneg (Pos p)) as HP. pose proof (len_nonneg (Data p)) as HD.
  unfold parsePoint, record_bytes.
  rewrite padding_small by lia.
  rewrite !(uint32_small (len _)) by lia.
  rewrite <- !app_assoc.
  rewrite parsePointHeader_encoded by lia. cbn [bind].
  unfold uint32_mul, uint32_add, float64Size.
  rewrite uint32_small by lia.
  replace (len (Pos p) * 8) with (Z.of_nat (length (binary.float64s_bytes (elems (Pos p)))))
    by (rewrite length_float64s_bytes; unfold len; lia).
  rewrite slice_to_app. cbn [bind].
  rewrite readFloats_encoded by exact Hwf.
  rewrite slice_from_app. cbn [bind].
  rewrite (slice_to_app (elems (Data p)) _ _
           : slice_to _ (len (Data p)) = _). cbn [bind].
  rewrite uint32_small by lia.
  replace (len (Data p) + (maxDataLen - len (Data p)))
    with (Z.of_nat (length (elems (Data p)
                      ++ repeat Byte.x00 (Z.to_nat (maxDataLen - len (Data p))))))
    by (rewrite length_app, repeat_length; unfold len in *; lia).
  rewrite app_assoc, slice_from_app. cbn [bind].
  now rewrite <- app_assoc.
Qed.
(** ** Round trip *)

Lemma SFeqb_refl (v : spec_float) : v <> S754_nan -> SFeqb v v = true.
Proof.
  intros Hv. unfold SFeqb, SFcompare.
  destruct v as [s|s| |s m e]; try reflexivity.
  - now destruct s.
  - contradiction.
  - rewrite Z.compare_refl, Pos.compare_cont_refl. now destruct s.
Qed.

Lemma eqb_refl (x : float64) : isNaN x = false -> Float64.eqb x x = true.
Proof.
  unfold isNaN, Float64.eqb. intros Hx. apply SFeqb_refl.
  intros E. rewrite E in Hx. discriminate.
Qed.

Lemma coords_eqb_refl (l : list float64) :
  Forall (fun x => isNaN x = false) l ->
  Forall2 (fun x y => Float64.eqb y x = true) l l.
Proof.
  induction l as [|x l IH]; intros H; constructor; inversion H; subst;
    auto using eqb_refl.
Qed.

Lemma equal_same_contents (q p : Point) :
  elems (Pos q) = elems (Pos p) -> elems (Data q) = elems (Data p) ->
  no_NaN p -> equal q p = Done true.
Proof.
  intros HP HD Hnan. unfold equal, len. rewrite HP, HD, !Z.eqb_refl.
  cbn [negb orb]. destruct p as [[pp sp] dp]. cbn [Pos Data elems] in *.
  destruct (equal_range_spec pp [] pp sp eq_refl) as (r & Hr & Hiff).
  cbn [app length] in Hr. change (Z.of_nat 0) with 0 in Hr. rewrite Hr.
  replace r with true by (symmetry; apply Hiff, coords_eqb_refl, Hnan).
  cbn [bind]. f_equal. now apply bytes_Equal_eq.
Qed.

Lemma fitsb_fits (maxDataLen : Z) (p : Point) :
  fitsb maxDataLen p = true -> fits maxDataLen p.
Proof.
  unfold fitsb, fits, wf_point. rewrite !andb_true_iff, forallb_forall.
  intros (((Hwf & HP) & HD) & HM).
  apply Z.ltb_lt in HP, HM. apply Z.leb_le in HD.
  repeat split; auto. apply Forall_forall. intros b Hb.
  specialize (Hwf b Hb). apply andb_true_iff in Hwf. destruct Hwf as (H0 & H1).
  apply Z.leb_le in H0. apply Z.ltb_lt in H1. split; assumption.
Qed.

(** C1, as the code has it: for a point of well-formed coordinates with
    fewer than 2^29 of them, and [len(Data) <= maxDataLen < 2^32],
    [serialize] into a buffer succeeds and [parsePoint] on the bytes
    succeeds with the same coordinate patterns, the same data and an empty
    remainder; the decoded point is equal to the original under [equal]
    when no coordinate is a NaN. *)
Theorem serialize_parsePoint_roundtrip (p : Point) (maxDataLen : Z)
  (sl : list byte) (Hfits : fits maxDataLen p) :
  exists q remaining,
    serialize p ([] : Buffer) maxDataLen = (encode maxDataLen p, None)
    /\ parsePoint (mkSlice (encode maxDataLen p) sl) = Done (q, remaining, None)
    /\ elems (Pos q) = elems (Pos p)
    /\ elems (Data q) = elems (Data p)
    /\ len remaining = 0
    /\ (no_NaN p -> equal q p = Done true).
Proof.
  pose proof Hfits as (_ & _ & Hle & _).
  rewrite (encode_record_bytes p maxDataLen Hle).
  pose proof (parsePoint_encoded p maxDataLen [] sl Hfits) as Hparse.
  rewrite app_nil_r in Hparse.
  do 2 eexists. split; [apply (serialize_Buffer p [] maxDataLen Hle)|].
  split; [exact Hparse|]. cbn [Pos Data elems of_list].
  repeat split. intros Hnan. now apply equal_same_contents.
Qed.

(** C1 on the scenario of the specification. *)
Lemma serialize_parsePoint_roundtrip_example :
  fits 4 (mkPoint (of_list [one; two]) (of_list [Byte.xaa; Byte.xbb]))
  /\ exists q remaining,
    serialize (mkPoint (of_list [one; two]) (of_list [Byte.xaa; Byte.xbb]))
      ([] : Buffer) 4
    = (encode 4 (mkPoint (of_list [one; two]) (of_list [Byte.xaa; Byte.xbb])), None)
    /\ parsePoint
         (mkSlice (encode 4 (mkPoint (of_list [one; two]) (of_list [Byte.xaa; Byte.xbb]))) [])
       = Done (q, remaining, None)
    /\ elems (Pos q) = [one; two]
    /\ elems (Data q) = [Byte.xaa; Byte.xbb]
    /\ len remaining = 0
    /\ (no_NaN (mkPoint (of_list [one; two]) (of_list [Byte.xaa; Byte.xbb])) ->
        equal q (mkPoint (of_list [one; two]) (of_list [Byte.xaa; Byte.xbb])) = Done true).
Proof.
  assert (Hfits : fits 4 (mkPoint (of_list [one; two]) (of_list [Byte.xaa; Byte.xbb]))).
  { apply fitsb_fits. vm_compute. reflexivity. }
  split; [exact Hfits|].
  exact (serialize_parsePoint_roundtrip _ 4 [] Hfits).
Defined.

(** C1 as the specification words it fails on a NaN coordinate: the bytes
    come back as they were, and [equal] says the two points differ. *)
Lemma roundtrip_NaN_not_equal :
  len (Data (mkPoint (of_list [quiet_nan]) nil_slice)) <= 0
  /\ serialize (mkPoint (of_list [quiet_nan]) nil_slice) ([] : Buffer) 0
     = (encode 0 (mkPoint (of_list [quiet_nan]) nil_slice), None)
  /\ parsePoint (of_list (encode 0 (mkPoint (of_list [quiet_nan]) nil_slice)))
     = Done (mkPoint (of_list [quiet_nan]) nil_slice, nil_slice, None)
  /\ equal (mkPoint (of_list [quiet_nan]) nil_slice)
           (mkPoint (of_list [quiet_nan]) nil_slice) = Done false.
Proof. repeat split; vm_compute; congruence. Qed.
(** ** Decoding records laid end to end *)

(** What one decoded point has in common with the one that was encoded. *)
Lemma parsePoints_encoded (maxDataLen : Z) (ps : list Point) : forall sl,
  Forall (fits maxDataLen) ps ->
  exists qs,
    parsePoints (length ps) (mkSlice (concat (map (encode maxDataLen) ps)) sl)
    = Done (qs, mkSlice [] sl, None)
    /\ Forall2 (fun q p => elems (Pos q) = elems (Pos p)
                           /\ elems (Data q) = elems (Data p)) qs ps.
Proof.
  induction ps as [|p ps IH]; intros sl Hfits.
  - exists []. split; [reflexivity|constructor].
  - inversion Hfits as [|? ? Hp Hps]; subst.
    pose proof Hp as (_ & _ & Hle & _).
    destruct (IH sl Hps) as (qs & Hqs & Hall).
    cbn [length map concat parsePoints].
    rewrite (encode_record_bytes p maxDataLen Hle).
    rewrite (parsePoint_encoded p maxDataLen _ sl Hp). cbn [bind].
    rewrite Hqs. cbn [bind].
    eexists. split; [reflexivity|]. constructor; [|exact Hall].
    cbn [Pos Data elems of_list]. auto.
Qed.

(** C6, as the code has it: for points of well-formed coordinates with
    fewer than 2^29 of them each, and [len(Data) <= maxDataLen < 2^32],
    each [serialize] succeeds, and [parsePoint] applied once per point to
    the successive remainders of the concatenated records succeeds every
    time, gives back the coordinate patterns and the data of each point in
    order, and leaves nothing; each decoded point is equal to its original
    under [equal] when that one has no NaN coordinate. *)
Theorem sequential_decode (maxDataLen : Z) (ps : list Point) (sl : list byte)
  (Hfits : Forall (fits maxDataLen) ps) :
  Forall (fun p => serialize p ([] : Buffer) maxDataLen = (encode maxDataLen p, None)) ps
  /\ exists qs remaining,
      parsePoints (length ps) (mkSlice (concat (map (encode maxDataLen) ps)) sl)
      = Done (qs, remaining, None)
      /\ len remaining = 0
      /\ Forall2 (fun q p => elems (Pos q) = elems (Pos p)
                             /\ elems (Data q) = elems (Data p)
                             /\ (no_NaN p -> equal q p = Done true)) qs ps.
Proof.
  split.
  - apply Forall_forall. intros p Hin.
    assert (Hp : fits maxDataLen p) by (revert p Hin; now apply Forall_forall).
    destruct Hp as (_ & _ & Hle & _).
    rewrite (encode_record_bytes p maxDataLen Hle).
    apply (serialize_Buffer p [] maxDataLen Hle).
  - destruct (parsePoints_encoded maxDataLen ps sl Hfits) as (qs & Hqs & Hall).
    exists qs, (mkSlice [] sl). split; [exact Hqs|]. split; [reflexivity|].
    clear Hqs Hfits. induction Hall as [|q p qs ps (HP & HD) _ IH]; constructor.
    + repeat split; auto. intros Hnan. now apply equal_same_contents.
    + exact IH.
Qed.

(** C6 on three records with different payload lengths and one
    [maxDataLen]. *)
Lemma sequential_decode_example :
  Forall (fits 3)
    [mkPoint (of_list [one; two]) (of_list [Byte.xaa; Byte.xbb]);
     mkPoint (of_list [two; pos_zero]) (of_list []);
     mkPoint (of_list [neg_zero; one]) (of_list [Byte.x01; Byte.x02; Byte.x03])]
  /\ exists qs remaining,
      parsePoints 3
        (mkSlice (concat (map (encode 3)
           [mkPoint (of_list [one; two]) (of_list [Byte.xaa; Byte.xbb]);
            mkPoint (of_list [two; pos_zero]) (of_list []);
            mkPoint (of_list [neg_zero; one]) (of_list [Byte.x01; Byte.x02; Byte.x03])])) [])
      = Done (qs, remaining, None)
      /\ len remaining = 0
      /\ Forall2 (fun q p => elems (Pos q) = elems (Pos p)
                             /\ elems (Data q) = elems (Data p)
                             /\ (no_NaN p -> equal q p = Done true)) qs
           [mkPoint (of_list [one; two]) (of_list [Byte.xaa; Byte.xbb]);
            mkPoint (of_list [two; pos_zero]) (of_list []);
            mkPoint (of_list [neg_zero; one]) (of_list [Byte.x01; Byte.x02; Byte.x03])].
Proof.
  assert (Hfits : Forall (fits 3)
    [mkPoint (of_list [one; two]) (of_list [Byte.xaa; Byte.xbb]);
     mkPoint (of_list [two; pos_zero]) (of_list []);
     mkPoint (of_list [neg_zero; one]) (of_list [Byte.x01; Byte.x02; Byte.x03])]).
  { repeat (apply Forall_cons; [apply fitsb_fits; vm_compute; reflexivity|]).
    apply Forall_nil. }
  split; [exact Hfits|].
  exact (proj2 (sequential_decode 3 _ [] Hfits)).
Defined.

(** C6 as the specification words it fails on a NaN coordinate: both
    records decode, and [equal] says the first decoded point differs from
    the point it was encoded from. *)
Lemma sequential_decode_NaN_not_equal :
  parsePoints 2
    (of_list (concat (map (encode 2)
       [mkPoint (of_list [quiet_nan]) (of_list [Byte.x01]);
        mkPoint (of_list [one]) (of_list [Byte.x02; Byte.x03])])))
  = Done ([mkPoint (of_list [quiet_nan])
             (mkSlice [Byte.x01]
                (Byte.x00 :: encode 2 (mkPoint (of_list [one]) (of_list [Byte.x02; Byte.x03]))));
           mkPoint (of_list [one]) (of_list [Byte.x02; Byte.x03])],
          nil_slice, None)
  /\ equal (mkPoint (of_list [quiet_nan])
              (mkSlice [Byte.x01]
                 (Byte.x00 :: encode 2 (mkPoint (of_list [one]) (of_list [Byte.x02; Byte.x03])))))
           (mkPoint (of_list [quiet_nan]) (of_list [Byte.x01])) = Done false.
Proof. split; vm_compute; reflexivity. Qed.
(** ** Buffers shorter than their header says *)

Lemma bind_Done {A B} (m : run A) (k : A -> run B) b :
  bind m k = Done b -> exists a, m = Done a /\ k a = Done b.
Proof. destruct m as [a|p]; cbn [bind]; [eauto|discriminate]. Qed.

Lemma index_Done {A} (s : slice A) i x : index s i = Done x -> 0 <= i < len s.
Proof.
  unfold index. destruct (0 <=? i) eqn:E0; destruct (i <? len s) eqn:E1;
    cbn [andb]; try discriminate.
  intros _. apply Z.leb_le in E0. apply Z.ltb_lt in E1. lia.
Qed.

Lemma slice_from_Done {A} (s s' : slice A) lo :
  slice_from s lo = Done s' ->
  0 <= lo <= len s /\ len s' = len s - lo /\ cap s' = cap s - lo.
Proof.
  unfold slice_from. destruct (0 <=? lo) eqn:E0; destruct (lo <=? len s) eqn:E1;
    cbn [andb]; try discriminate.
  apply Z.leb_le in E0. apply Z.leb_le in E1. intros [= <-].
  unfold len, cap in *. cbn [elems slack]. rewrite length_skipn. lia.
Qed.

Lemma slice_to_Done {A} (s s' : slice A) hi :
  slice_to s hi = Done s' -> 0 <= hi <= cap s /\ len s' = hi.
Proof.
  unfold slice_to. destruct (0 <=? hi) eqn:E0; destruct (hi <=? cap s) eqn:E1;
    cbn [andb]; try discriminate.
  apply Z.leb_le in E0. apply Z.leb_le in E1. intros [= <-].
  unfold len, cap in *. cbn [elems]. rewrite length_firstn, length_app. lia.
Qed.

Lemma Uint32_Done (b : slice byte) v :
  binary.Uint32 b = Done v -> 4 <= len b /\ 0 <= v < 2 ^ 32.
Proof.
  unfold binary.Uint32. intros H. apply bind_Done in H.
  destruct H as (x & Hx & [= Hv]). apply index_Done in Hx. split; [lia|].
  change (le_combine (firstn 4 (elems b)) = v) in Hv.
  rewrite <- Hv, le_combine_firstn. change (2 ^ (8 * Z.of_nat 4)) with (2 ^ 32).
  apply Z.mod_pos_bound. reflexivity.
Qed.

(** What a header that decodes says of its buffer. *)
Lemma parsePointHeader_Done buf dims datalen padlen body :
  parsePointHeader buf = Done (dims, datalen, padlen, body, None) ->
  13 <= len buf /\ len body = len buf - 13
  /\ 0 <= dims < 2 ^ 32 /\ 0 <= datalen < 2 ^ 32 /\ 0 <= padlen < 2 ^ 32.
Proof.
  unfold parsePointHeader. intros H.
  apply bind_Done in H. destruct H as (b0 & _ & H).
  destruct (negb (Byte.eqb b0 Byte.x00)); [discriminate|].
  apply bind_Done in H. destruct H as (b1 & H1 & H). apply slice_from_Done in H1.
  apply bind_Done in H. destruct H as (v1 & Hv1 & H). apply Uint32_Done in Hv1.
  apply bind_Done in H. destruct H as (b2 & H2 & H). apply slice_from_Done in H2.
  apply bind_Done in H. destruct H as (v2 & Hv2 & H). apply Uint32_Done in Hv2.
  apply bind_Done in H. destruct H as (b3 & H3 & H). apply slice_from_Done in H3.
  apply bind_Done in H. destruct H as (v3 & Hv3 & H). apply Uint32_Done in Hv3.
  apply bind_Done in H. destruct H as (b4 & H4 & H). apply slice_from_Done in H4.
  injection H as <- <- <- <-. unfold uint32Size in *. lia.
Qed.

(** C2, as the code has it: there is no length check and no truncation
    error in [parsePoint].  On a buffer whose header decodes with
    [dims < 2^29] and [dataLen + padLen < 2^32] (no 32-bit wrap) and which
    is shorter than [13 + dims*8 + dataLen + padLen], it returns neither a
    point nor an error: it panics, slice bounds out of range. *)
Theorem parsePoint_truncated_panics (buf body : slice byte) (dims datalen padlen : Z)
  (Hhdr : parsePointHeader buf = Done (dims, datalen, padlen, body, None))
  (Hdims : dims < 2 ^ 29) (Hsum : datalen + padlen < 2 ^ 32)
  (Hshort : len buf < 13 + dims * 8 + datalen + padlen) :
  parsePoint buf = Panicked SliceBoundsOutOfRange.
Proof.
  pose proof (parsePointHeader_Done _ _ _ _ _ Hhdr) as (H13 & Hbody & Hd & Hdl & Hpl).
  unfold parsePoint. rewrite Hhdr. cbn [bind].
  unfold uint32_mul, uint32_add, float64Size. rewrite !uint32_small by lia.
  destruct (slice_to_cases body (dims * 8)) as [-> | (floats & ->)]; [reflexivity|].
  cbn [bind]. unfold readFloats.
  destruct (Z_lt_le_dec (len body) (dims * 8)) as [Hlt|Hge].
  { rewrite slice_from_out by exact Hlt. reflexivity. }
  rewrite slice_from_in by lia. cbn [bind].
  set (body' := mkSlice (skipn (Z.to_nat (dims * 8)) (elems body)) (slack body)).
  assert (Hlen' : len body' = len body - dims * 8).
  { unfold body', len in *. cbn [elems]. rewrite length_skipn. lia. }
  destruct (slice_to_cases body' datalen) as [-> | (data & ->)]; [reflexivity|].
  cbn [bind]. rewrite slice_from_out by lia. reflexivity.
Qed.

(** C2 on the record of the specification's scenario with its last byte
    cut off: 32 bytes where the header says 33. *)
Lemma parsePoint_truncated_example :
  parsePoint
    (of_list (firstn 32
       (encode 4 (mkPoint (of_list [one; two]) (of_list [Byte.xaa; Byte.xbb])))))
  = Panicked SliceBoundsOutOfRange.
Proof.
  apply (parsePoint_truncated_panics _
           (of_list (skipn 13 (firstn 32
              (encode 4 (mkPoint (of_list [one; two]) (of_list [Byte.xaa; Byte.xbb]))))))
           2 2 2).
  - vm_compute. reflexivity.
  - vm_compute. reflexivity.
  - vm_compute. reflexivity.
  - vm_compute. reflexivity.
Defined.

(** C2 as the specification words it fails on that buffer: its header
    decodes and asks for 33 bytes, the buffer has 32, and [parsePoint]
    returns no error of any kind: it panics. *)
Lemma parsePoint_truncated_no_error :
  parsePointHeader
    (of_list (firstn 32
       (encode 4 (mkPoint (of_list [one; two]) (of_list [Byte.xaa; Byte.xbb])))))
  = Done (2, 2, 2,
          of_list (skipn 13 (firstn 32
            (encode 4 (mkPoint (of_list [one; two]) (of_list [Byte.xaa; Byte.xbb]))))),
          None)
  /\ len (of_list (firstn 32
       (encode 4 (mkPoint (of_list [one; two]) (of_list [Byte.xaa; Byte.xbb])))))
     < 13 + 2 * 8 + 2 + 2
  /\ parsePoint
       (of_list (firstn 32
          (encode 4 (mkPoint (of_list [one; two]) (of_list [Byte.xaa; Byte.xbb])))))
     = Panicked SliceBoundsOutOfRange.
Proof. repeat split; vm_compute; reflexivity. Qed.
(** ** The coordinate bytes, counted in 32 bits and in 64 *)

Lemma length_float64s_of_bytes n : forall bs, length (float64s_of_bytes n bs) = n.
Proof. induction n as [|n IH]; intros bs; cbn [float64s_of_bytes length]; auto. Qed.

(** What a successful [parsePoint] has taken from the body. *)
Lemma parsePoint_consumed buf body dims datalen padlen q remaining err :
  parsePointHeader buf = Done (dims, datalen, padlen, body, None) ->
  parsePoint buf = Done (q, remaining, err) ->
  err = None
  /\ len (Pos q) = uint32_mul dims float64Size / 8
  /\ len body - len remaining
     = uint32_mul dims float64Size + uint32_add datalen padlen.
Proof.
  intros Hhdr. unfold parsePoint. rewrite Hhdr. cbn [bind]. intros H.
  apply bind_Done in H. destruct H as (floats & Hfl & H).
  unfold readFloats in H.
  apply bind_Done in H. destruct H as (body' & Hb' & H).
  apply bind_Done in H. destruct H as (data & Hdata & H).
  apply bind_Done in H. destruct H as (rem & Hrem & H).
  injection H as <- <- <-.
  apply slice_to_Done in Hfl. apply slice_from_Done in Hb', Hrem.
  split; [reflexivity|]. split; [|lia].
  cbn [Pos]. unfold of_list, len at 1. cbn [elems].
  rewrite length_float64s_of_bytes.
  change (fst (Nat.divmod (length (elems floats)) 7 0 7))
    with (Nat.div (length (elems floats)) 8).
  rewrite Nat2Z.inj_div.
  destruct Hfl as (_ & Hfl). unfold len in Hfl. now rewrite Hfl.
Qed.

Lemma recordLen_exact dims datalen padlen :
  0 <= dims < 2 ^ 32 ->
  recordLen dims datalen padlen
  = headerLen + dims * 8 + uint32_add datalen padlen.
Proof.
  intros Hd. pose proof (uint32_range (datalen + padlen)) as Hs.
  unfold recordLen, int_add, int_mul, uint32_add, headerLen, float64Size, uint32Size in *.
  rewrite (int_small dims) by lia.
  rewrite (int_small (dims * 8)) by lia.
  rewrite (int_small (uint32 _)) by lia.
  rewrite (int_small (1 + 3 * 4 + _)) by lia.
  rewrite int_small by lia. reflexivity.
Qed.

(** On those thirteen bytes as a stream, [parsePointFromReader] asks for
    [2^32] more and returns the reader's error. *)
Lemma parsePointFromReader_header_only :
  parsePointFromReader (header_bytes (2 ^ 29) 0 0 : BytesReader)
  = ([], Done (zeroPoint, 0, Some EOF)).
Proof. vm_compute. reflexivity. Qed.
(** ** Arithmetic of distanceSquared *)

Lemma binary_round_aux_sign mx ex lx :
  binary_round_aux prec emax true mx ex lx
  = SFopp (binary_round_aux prec emax false mx ex lx).
Proof.
  unfold binary_round_aux.
  destruct (shr_fexp prec emax mx ex lx) as [mrs' e'].
  destruct (shr_fexp prec emax _ e' loc_Exact) as [mrs'' e''].
  destruct (shr_m mrs''); try reflexivity.
  destruct (Z.leb e'' (Z.sub emax prec)); reflexivity.
Qed.

Lemma binary_round_sign mx ex :
  binary_round prec emax true mx ex = SFopp (binary_round prec emax false mx ex).
Proof.
  unfold binary_round. destruct (shl_align mx ex _) as [mz ez].
  apply binary_round_aux_sign.
Qed.

Lemma SFopp_involutive v : SFopp (SFopp v) = v.
Proof. destruct v; cbn [SFopp]; now rewrite ?negb_involutive. Qed.

Lemma binary_normalize_opp m e :
  m <> 0 ->
  binary_normalize prec emax (- m) e false = SFopp (binary_normalize prec emax m e false).
Proof.
  destruct m as [|m|m]; intros Hm; cbn [Z.opp binary_normalize].
  - contradiction.
  - apply binary_round_sign.
  - now rewrite binary_round_sign, SFopp_involutive.
Qed.

Lemma square_opp d : square (SFopp d) = square d.
Proof.
  unfold square, Float64.mul. destruct d as [s|s| |s m e]; cbn [SFopp SFmul];
    try destruct s; reflexivity.
Qed.

Lemma sub_swap_finite sx mx ex sy my ey :
  square (Float64.sub (S754_finite sx mx ex) (S754_finite sy my ey))
  = square (Float64.sub (S754_finite sy my ey) (S754_finite sx mx ex)).
Proof.
  unfold Float64.sub. cbn [SFsub]. cbv zeta. rewrite (Z.min_comm ey ex).
  set (ez := Z.min ex ey).
  set (x := cond_Zopp sx (Zpos (fst (shl_align mx ex ez)))).
  set (y := cond_Zopp sy (Zpos (fst (shl_align my ey ez)))).
  destruct (Z.eq_dec (x - y) 0) as [E|E].
  - replace (y - x) with 0 by lia. now rewrite E.
  - replace (y - x) with (- (x - y)) by lia.
    fold prec emax. rewrite (binary_normalize_opp _ _ E). apply eq_sym, square_opp.
Qed.

Lemma sub_swap x y :
  square (Float64.sub x y) = square (Float64.sub y x).
Proof.
  destruct x as [sx|sx| |sx mx ex]; destruct y as [sy|sy| |sy my ey];
    try apply sub_swap_finite;
    unfold square, Float64.sub, Float64.mul; cbn [SFsub SFmul];
    try reflexivity;
    try (destruct sx; destruct sy; reflexivity);
    try (destruct sx; reflexivity);
    try (destruct sy; reflexivity).
Qed.

Lemma sum_squares_swap l1 : forall l2 sum,
  sum_squares l1 l2 sum = sum_squares l2 l1 sum.
Proof.
  induction l1 as [|x l1 IH]; intros [|y l2] sum; cbn [sum_squares]; auto.
  fold (square (Float64.sub (value x) (value y))).
  fold (square (Float64.sub (value y) (value x))).
  rewrite (sub_swap (value x) (value y)). apply IH.
Qed.

(** [x - x], squared, for a finite [x]. *)
Lemma square_sub_self v :
  finite_value v -> square (Float64.sub v v) = Float64.zero.
Proof.
  destruct v as [s|s| |s m e]; cbn [finite_value]; intros H; try contradiction.
  - destruct s; reflexivity.
  - unfold square, Float64.sub. cbn [SFsub]. cbv zeta.
    rewrite Z.sub_diag. reflexivity.
Qed.

Lemma isFinite_value x : isFinite x = true -> finite_value (value x).
Proof.
  unfold isFinite. destruct (value x); cbn [finite_value]; intros H;
    try exact I; discriminate.
Qed.

Lemma sum_squares_self l :
  Forall (fun x => isFinite x = true) l ->
  sum_squares l l Float64.zero = Float64.zero.
Proof.
  induction 1 as [|x l Hx Hl IH]; cbn [sum_squares]; [reflexivity|].
  fold (square (Float64.sub (value x) (value x))).
  rewrite square_sub_self by now apply isFinite_value.
  exact IH.
Qed.

(** Rounding never makes a NaN out of a mantissa that is not negative. *)
Lemma shr_1_nonneg mrs : 0 <= shr_m mrs -> 0 <= shr_m (shr_1 mrs).
Proof.
  destruct mrs as [m r s]. cbn [shr_m shr_1].
  destruct m as [|[q|q|]|[q|q|]]; cbn [shr_m]; lia.
Qed.

Lemma iter_pos_shr_1_nonneg n : forall mrs,
  0 <= shr_m mrs -> 0 <= shr_m (iter_pos shr_1 n mrs).
Proof.
  induction n as [n IH|n IH|]; intros mrs H; cbn [iter_pos];
    auto using shr_1_nonneg.
Qed.

Lemma shr_fexp_nonneg m e l :
  0 <= m -> 0 <= shr_m (fst (shr_fexp prec emax m e l)).
Proof.
  intros Hm. unfold shr_fexp, shr.
  assert (H0 : 0 <= shr_m (shr_record_of_loc m l))
    by (destruct l as [|[]]; exact Hm).
  destruct (Z.sub _ e); cbn [fst]; auto using iter_pos_shr_1_nonneg.
Qed.

Lemma round_nearest_even_nonneg m l : 0 <= m -> 0 <= round_nearest_even m l.
Proof.
  intros Hm. unfold round_nearest_even.
  destruct l as [|[]]; try destruct (Z.even m); lia.
Qed.

(** The result of rounding a mantissa that is not negative has the sign
    it was given and is not a NaN. *)
Lemma binary_round_aux_false m e l :
  0 <= m -> nonneg_value (binary_round_aux prec emax false m e l).
Proof.
  intros Hm. unfold binary_round_aux.
  pose proof (shr_fexp_nonneg m e l Hm) as H1.
  destruct (shr_fexp prec emax m e l) as [mrs' e']. cbn [fst] in H1.
  pose proof (shr_fexp_nonneg _ e' loc_Exact
                (round_nearest_even_nonneg _ (loc_of_shr_record mrs') H1)) as H2.
  destruct (shr_fexp prec emax _ e' loc_Exact) as [mrs'' e'']. cbn [fst] in H2.
  destruct (shr_m mrs'') as [|q|q]; cbn [nonneg_value]; [exact I| |lia].
  destruct (Z.leb e'' (Z.sub emax prec)); reflexivity.
Qed.

Lemma binary_round_aux_not_nan s m e l :
  0 <= m -> binary_round_aux prec emax s m e l <> S754_nan.
Proof.
  intros Hm. pose proof (binary_round_aux_false m e l Hm) as H.
  destruct s; [rewrite binary_round_aux_sign|];
    destruct (binary_round_aux prec emax false m e l); cbn in *; congruence.
Qed.

Lemma binary_round_not_nan s m e : binary_round prec emax s m e <> S754_nan.
Proof.
  unfold binary_round. destruct (shl_align m e _) as [mz ez].
  apply binary_round_aux_not_nan. lia.
Qed.

Lemma square_nonneg d : d <> S754_nan -> nonneg_value (square d).
Proof.
  unfold square, Float64.mul. destruct d as [s|s| |s m e]; cbn [SFmul]; intros H.
  - exact I.
  - now destruct s.
  - contradiction.
  - replace (xorb s s) with false by now destruct s.
    apply binary_round_aux_false. lia.
Qed.

Lemma sub_finite_not_nan x y :
  finite_value x -> finite_value y -> Float64.sub x y <> S754_nan.
Proof.
  unfold Float64.sub.
  destruct x as [sx|sx| |sx mx ex]; destruct y as [sy|sy| |sy my ey];
    cbn [finite_value SFsub]; intros Hx Hy; try contradiction; try discriminate.
  - destruct sx, sy; discriminate.
  - cbv zeta. destruct (Z.sub _ _); cbn [binary_normalize];
      [discriminate | apply binary_round_not_nan | apply binary_round_not_nan].
Qed.

Lemma add_nonneg x y :
  nonneg_value x -> nonneg_value y -> nonneg_value (Float64.add x y).
Proof.
  unfold Float64.add.
  destruct x as [sx|sx| |sx mx ex]; destruct y as [sy|sy| |sy my ey];
    cbn [nonneg_value SFadd]; intros Hx Hy; subst; try contradiction;
    try exact I; try reflexivity.
  - destruct sx, sy; exact I.
  - cbv zeta. cbn [cond_Zopp Z.add binary_normalize].
    unfold binary_round. destruct (shl_align _ _ _) as [mz ez].
    apply binary_round_aux_false. lia.
Qed.

Lemma sum_squares_nonneg l1 : forall l2 sum,
  Forall (fun x => isFinite x = true) l1 ->
  Forall (fun x => isFinite x = true) l2 ->
  nonneg_value sum -> nonneg_value (sum_squares l1 l2 sum).
Proof.
  induction l1 as [|x l1 IH]; intros [|y l2] sum H1 H2 Hs; cbn [sum_squares]; auto.
  inversion H1; subst. inversion H2; subst.
  apply IH; auto. apply add_nonneg; [exact Hs|].
  apply (square_nonneg (Float64.sub (value x) (value y))).
  apply sub_finite_not_nan; now apply isFinite_value.
Qed.

Lemma nonneg_value_eqb v : nonneg_value v -> SFeqb v v = true.
Proof.
  intros H. apply SFeqb_refl. intros ->. exact H.
Qed.

(** C9, as the code has it: [distanceSquared(p, p)] is +0, and so [== 0],
    for every point whose coordinates are all finite; for two points of
    the same dimension [distanceSquared(a, b)] and [distanceSquared(b, a)]
    return the same value, and that value is [==] to itself when all the
    coordinates of both are finite (it is then not a NaN). *)
Theorem distanceSquared_zero_and_symmetric :
  (forall p, all_finite p ->
     exists v, distanceSquared p p = Done v
               /\ v = Float64.zero /\ SFeqb v Float64.zero = true)
  /\ (forall a b, len (Pos a) = len (Pos b) ->
        exists v w, distanceSquared a b = Done v /\ distanceSquared b a = Done w
                    /\ v = w
                    /\ (all_finite a -> all_finite b -> SFeqb v w = true)).
Proof.
  split.
  - intros q Hfin. exists Float64.zero.
    rewrite (distanceSquared_same_length q q eq_refl).
    rewrite (sum_squares_self _ Hfin). repeat split.
  - intros a b Hlen.
    exists (sum_squares (elems (Pos a)) (elems (Pos b)) Float64.zero),
           (sum_squares (elems (Pos b)) (elems (Pos a)) Float64.zero).
    rewrite (distanceSquared_same_length a b Hlen).
    rewrite (distanceSquared_same_length b a (eq_sym Hlen)).
    repeat split.
    + apply sum_squares_swap.
    + intros Ha Hb. rewrite <- (sum_squares_swap (elems (Pos a))).
      apply nonneg_value_eqb, sum_squares_nonneg; auto. exact I.
Qed.

(** C9 on two points of the plane, (1, 2) and (2, 0): both ways the
    squared distance is 5. *)
Lemma distanceSquared_symmetric_example :
  exists v w,
    distanceSquared (mkPoint (of_list [one; two]) nil_slice)
                    (mkPoint (of_list [two; pos_zero]) nil_slice) = Done v
    /\ distanceSquared (mkPoint (of_list [two; pos_zero]) nil_slice)
                       (mkPoint (of_list [one; two]) nil_slice) = Done w
    /\ v = w
    /\ (all_finite (mkPoint (of_list [one; two]) nil_slice) ->
        all_finite (mkPoint (of_list [two; pos_zero]) nil_slice) ->
        SFeqb v w = true).
Proof.
  exact (proj2 distanceSquared_zero_and_symmetric
           (mkPoint (of_list [one; two]) nil_slice)
           (mkPoint (of_list [two; pos_zero]) nil_slice) eq_refl).
Defined.

(** C9 as the specification words it fails on an infinite coordinate:
    [Inf - Inf] is a NaN, the distance of the point to itself is a NaN,
    and a NaN is [==] neither to 0 nor to itself. *)
Lemma distanceSquared_self_NaN :
  distanceSquared (mkPoint (of_list [pos_inf]) nil_slice)
                  (mkPoint (of_list [pos_inf]) nil_slice) = Done S754_nan
  /\ SFeqb S754_nan Float64.zero = false
  /\ SFeqb S754_nan S754_nan = false.
Proof. repeat split; vm_compute; reflexivity. Qed.
(** ** Why the round trip stops at 2^29 coordinates *)

(** A point with exactly 2^29 coordinates and no data is written in full,
    and [parsePoint] reads none of its coordinates back: the whole
    coordinate section is left in the remainder. *)
Lemma roundtrip_loses_coordinates (p : Point) (sl : list byte) :
  len (Pos p) = 2 ^ 29 -> len (Data p) = 0 ->
  exists q remaining,
    parsePoint (mkSlice (encode 0 p) sl) = Done (q, remaining, None)
    /\ len (Pos q) = 0
    /\ len remaining = 2 ^ 32.
Proof.
  intros HP HD.
  rewrite (encode_record_bytes p 0) by lia.
  unfold record_bytes, parsePoint. rewrite HP, HD.
  change (uint32 (int_sub 0 0)) with 0. change (uint32 0) with 0.
  change (uint32 (2 ^ 29)) with (2 ^ 29).
  change (Z.to_nat 0) with 0%nat. cbn [repeat].
  rewrite parsePointHeader_encoded by (split; [discriminate|reflexivity]).
  cbn [bind].
  change (uint32_mul (2 ^ 29) float64Size) with 0.
  change (uint32_add 0 0) with 0.
  set (body := binary.float64s_bytes (elems (Pos p)) ++ elems (Data p) ++ []).
  rewrite (slice_to_app [] body sl : slice_to (mkSlice body sl) 0 = _).
  cbn [bind]. change (readFloats (mkSlice [] (body ++ sl))) with (@of_list float64 [], @None error).
  cbv iota beta.
  rewrite (slice_from_app [] body sl : slice_from (mkSlice body sl) 0 = _).
  cbn [bind].
  rewrite (slice_to_app [] body sl : slice_to (mkSlice body sl) 0 = _).
  cbn [bind].
  rewrite (slice_from_app [] body sl : slice_from (mkSlice body sl) 0 = _).
  cbn [bind].
  do 2 eexists. split; [reflexivity|]. split; [reflexivity|].
  rewrite len_mkSlice. unfold body.
  rewrite !length_app, length_float64s_bytes. cbn [length].
  unfold len in HP, HD. lia.
Qed.

(** ** Why the round trip stops at [maxDataLen = 2^32] *)

(** With [maxDataLen = 2^32] and one byte of data the padding still fits
    its field, and [dataLen + padLen] wraps to 0 in [parsePoint]: the data
    and the padding are left in the remainder. *)
Lemma roundtrip_leaves_padding (p : Point) (sl : list byte) :
  len (Pos p) = 0 -> len (Data p) = 1 ->
  exists q remaining,
    parsePoint (mkSlice (encode (2 ^ 32) p) sl) = Done (q, remaining, None)
    /\ len remaining = 2 ^ 32.
Proof.
  intros HP HD.
  rewrite (encode_record_bytes p (2 ^ 32)) by lia.
  unfold record_bytes, parsePoint. rewrite HP, HD.
  assert (E1 : uint32 (int_sub (2 ^ 32) 1) = 2 ^ 32 - 1) by (vm_compute; reflexivity).
  assert (E2 : uint32 0 = 0) by reflexivity.
  assert (E3 : uint32 1 = 1) by reflexivity.
  assert (E4 : uint32_add 1 (2 ^ 32 - 1) = 0) by (vm_compute; reflexivity).
  assert (E5 : uint32_mul 0 float64Size = 0) by reflexivity.
  rewrite E1, E2, E3.
  generalize (@eq_refl _ (repeat Byte.x00 (Z.to_nat (2 ^ 32 - 1)))).
  generalize (repeat Byte.x00 (Z.to_nat (2 ^ 32 - 1))) at 1 3.
  intros pad Hpad.
  assert (Hlen : Z.of_nat (length pad) = 2 ^ 32 - 1).
  { rewrite Hpad, repeat_length. apply Z2Nat.id. discriminate. }
  clear Hpad.
  destruct p as [[pos ps] [data ds]]. unfold len in HP, HD. cbn [Pos Data elems] in *.
  destruct pos as [|? ?]; [|cbn [length] in HP; lia].
  destruct data as [|x [|? ?]]; cbn [length] in HD; try lia.
  rewrite parsePointHeader_encoded by (split; [discriminate|reflexivity]).
  cbn [bind binary.float64s_bytes flat_map app].
  rewrite E4, E5.
  rewrite (slice_to_app [] (x :: pad) sl : slice_to (mkSlice (x :: pad) sl) 0 = _).
  cbn [bind].
  change (readFloats (mkSlice [] ((x :: pad) ++ sl))) with (@of_list float64 [], @None error).
  cbv iota beta.
  rewrite (slice_from_app [] (x :: pad) sl : slice_from (mkSlice (x :: pad) sl) 0 = _).
  cbn [bind].
  rewrite (slice_to_app [x] pad sl : slice_to (mkSlice (x :: pad) sl) 1 = _).
  cbn [bind].
  rewrite (slice_from_app [] (x :: pad) sl : slice_from (mkSlice (x :: pad) sl) 0 = _).
  cbn [bind].
  do 2 eexists. split; [reflexivity|].
  rewrite len_mkSlice. cbn [length]. lia.
Qed.
(** ** parsePoint on a buffer that holds a whole record *)

Lemma slice_to_in {A} (s : slice A) hi :
  0 <= hi <= len s ->
  slice_to s hi
  = Done (mkSlice (firstn (Z.to_nat hi) (elems s))
                  (skipn (Z.to_nat hi) (elems s) ++ slack s)).
Proof.
  intros H. unfold slice_to, cap.
  replace (0 <=? hi) with true by (symmetry; apply Z.leb_le; lia).
  replace (hi <=? Z.of_nat (length (elems s) + length (slack s))) with true
    by (symmetry; apply Z.leb_le; unfold len in H; lia).
  cbn [andb]. unfold len in H.
  rewrite firstn_app, skipn_app.
  replace (Z.to_nat hi - length (elems s))%nat with 0%nat by lia.
  cbn [firstn skipn]. now rewrite app_nil_r.
Qed.

Lemma slice_from_Done_eq {A} (s s' : slice A) lo :
  slice_from s lo = Done s' ->
  s' = mkSlice (skipn (Z.to_nat lo) (elems s)) (slack s).
Proof.
  unfold slice_from. destruct ((0 <=? lo) && (lo <=? len s)); [|discriminate].
  now intros [= <-].
Qed.

(** The body a decoded header hands on is the buffer after 13 bytes. *)
Lemma parsePointHeader_Done_body buf dims datalen padlen body :
  parsePointHeader buf = Done (dims, datalen, padlen, body, None) ->
  body = mkSlice (skipn 13 (elems buf)) (slack buf).
Proof.
  unfold parsePointHeader. intros H.
  apply bind_Done in H. destruct H as (b0 & _ & H).
  destruct (negb (Byte.eqb b0 Byte.x00)); [discriminate|].
  apply bind_Done in H. destruct H as (b1 & H1 & H). apply slice_from_Done_eq in H1.
  apply bind_Done in H. destruct H as (v1 & _ & H).
  apply bind_Done in H. destruct H as (b2 & H2 & H). apply slice_from_Done_eq in H2.
  apply bind_Done in H. destruct H as (v2 & _ & H).
  apply bind_Done in H. destruct H as (b3 & H3 & H). apply slice_from_Done_eq in H3.
  apply bind_Done in H. destruct H as (v3 & _ & H).
  apply bind_Done in H. destruct H as (b4 & H4 & H). apply slice_from_Done_eq in H4.
  injection H as _ _ _ <-. subst b4 b3 b2 b1. cbn [elems slack].
  rewrite !skipn_skipn. reflexivity.
Qed.

(** X1: when the header of a buffer decodes with [dims < 2^29] and
    [dataLen + padLen < 2^32] and the buffer has the
    [13 + dims*8 + dataLen + padLen] bytes the header asks for,
    [parsePoint] succeeds.  The point has [dims] coordinates and [dataLen]
    data bytes, and the remainder is the buffer without its first
    [pointSize(dims, dataLen + padLen)] bytes: one stride is consumed,
    whatever follows. *)
Theorem parsePoint_consumes_one_stride (buf body : slice byte)
  (dims datalen padlen : Z)
  (Hhdr : parsePointHeader buf = Done (dims, datalen, padlen, body, None))
  (Hdims : dims < 2 ^ 29) (Hsum : datalen + padlen < 2 ^ 32)
  (Hlong : 13 + dims * 8 + datalen + padlen <= len buf) :
  exists q remaining,
    parsePoint buf = Done (q, remaining, None)
    /\ len (Pos q) = dims
    /\ len (Data q) = datalen
    /\ len buf - len remaining = pointSize dims (datalen + padlen)
    /\ remaining
       = mkSlice (skipn (Z.to_nat (pointSize dims (datalen + padlen))) (elems buf))
                 (slack buf).
Proof.
  pose proof (parsePointHeader_Done _ _ _ _ _ Hhdr) as (H13 & Hbody & Hd & Hdl & Hpl).
  pose proof (parsePointHeader_Done_body _ _ _ _ _ Hhdr) as Hb.
  assert (Hsize : pointSize dims (datalen + padlen) = 13 + dims * 8 + datalen + padlen).
  { unfold pointSize, int_add, int_mul, float64Size, uint32Size.
    rewrite (int_small (dims * 8)) by lia.
    rewrite (int_small (1 + 4 * 3 + _)) by lia.
    rewrite int_small by lia. lia. }
  unfold parsePoint. rewrite Hhdr. cbn [bind].
  unfold uint32_mul, uint32_add, float64Size. rewrite !uint32_small by lia.
  rewrite slice_to_in by lia. cbn [bind]. unfold readFloats. cbv iota beta.
  rewrite slice_from_in by lia. cbn [bind].
  set (body' := mkSlice (skipn (Z.to_nat (dims * 8)) (elems body)) (slack body)).
  assert (Hlen' : len body' = len body - dims * 8).
  { unfold body', len in *. cbn [elems]. rewrite length_skipn. lia. }
  rewrite slice_to_in by lia. cbn [bind].
  rewrite slice_from_in by lia. cbn [bind].
  do 2 eexists. split; [reflexivity|].
  unfold len in *. cbn [Pos Data elems of_list slack] in *.
  rewrite length_float64s_of_bytes, !length_firstn, !length_skipn.
  rewrite Nat2Z.inj_div, Nat2Z.inj_min.
  repeat split.
  - rewrite Z.min_l by lia. rewrite Z2Nat.id by lia.
    change (Z.of_nat 8) with 8. apply Z.div_mul. lia.
  - unfold body'. cbn [elems]. rewrite length_skipn. lia.
  - unfold body'. cbn [elems]. rewrite length_skipn. lia.
  - unfold body'. cbn [elems slack]. rewrite Hsize, Hb. cbn [elems slack].
    rewrite !skipn_skipn. f_equal. f_equal. lia.
Qed.

(** X1 on the record of the specification's scenario followed by three
    more bytes. *)
Lemma parsePoint_consumes_one_stride_example :
  exists q remaining,
    parsePoint (of_list (encode 4 (mkPoint (of_list [one; two]) (of_list [Byte.xaa; Byte.xbb]))
                         ++ [Byte.x01; Byte.x02; Byte.x03]))
    = Done (q, remaining, None)
    /\ len (Pos q) = 2
    /\ len (Data q) = 2
    /\ len (of_list (encode 4 (mkPoint (of_list [one; two]) (of_list [Byte.xaa; Byte.xbb]))
                     ++ [Byte.x01; Byte.x02; Byte.x03])) - len remaining
       = pointSize 2 (2 + 2)
    /\ remaining
       = mkSlice (skipn (Z.to_nat (pointSize 2 (2 + 2)))
                    (elems (of_list (encode 4 (mkPoint (of_list [one; two]) (of_list [Byte.xaa; Byte.xbb]))
                                     ++ [Byte.x01; Byte.x02; Byte.x03]))))
                 (slack (of_list (encode 4 (mkPoint (of_list [one; two]) (of_list [Byte.xaa; Byte.xbb]))
                                  ++ [Byte.x01; Byte.x02; Byte.x03]))).
Proof.
  apply (parsePoint_consumes_one_stride _
           (of_list (skipn 13 (encode 4 (mkPoint (of_list [one; two]) (of_list [Byte.xaa; Byte.xbb]))
                               ++ [Byte.x01; Byte.x02; Byte.x03])))
           2 2 2).
  - vm_compute. reflexivity.
  - reflexivity.
  - reflexivity.
  - vm_compute. discriminate.
Defined.
(** ** Records by their layout *)

(** [parsePoint] on a buffer laid out as header, coordinate bytes, data,
    padding and whatever follows. *)
Lemma parsePoint_layout (dims datalen padlen : Z)
  (fbytes data pad rest sl : list byte) :
  0 <= dims < 2 ^ 29 ->
  Z.of_nat (length fbytes) = dims * 8 ->
  Z.of_nat (length data) = datalen ->
  Z.of_nat (length pad) = padlen ->
  datalen + padlen < 2 ^ 32 ->
  parsePoint (mkSlice (header_bytes dims datalen padlen
                         ++ fbytes ++ data ++ pad ++ rest) sl)
  = Done (mkPoint (of_list (float64s_of_bytes (Nat.div (length fbytes) 8) fbytes))
            (mkSlice data (pad ++ rest ++ sl)),
          mkSlice rest sl, None).
Proof.
  intros Hd Hf Hdl Hpl Hsum.
  unfold parsePoint, header_bytes. rewrite <- !app_assoc.
  rewrite parsePointHeader_encoded by lia. cbn [bind].
  unfold uint32_mul, uint32_add, float64Size. rewrite !uint32_small by lia.
  rewrite <- Hf, slice_to_app. cbn [bind]. unfold readFloats. cbv iota beta.
  cbn [elems]. rewrite slice_from_app. cbn [bind].
  rewrite <- Hdl at 1. rewrite slice_to_app. cbn [bind].
  replace (datalen + padlen) with (Z.of_nat (length (data ++ pad)))
    by (rewrite length_app; lia).
  rewrite app_assoc, slice_from_app. cbn [bind].
  now rewrite <- app_assoc.
Qed.

(** X2: [parsePoint] never looks at the padding.  Two buffers that differ
    only in the bytes of the padding decode to the same coordinates, the
    same data and the same remainder, so a slot may be reused without
    clearing it. *)
Theorem parsePoint_ignores_padding (dims datalen padlen : Z)
  (fbytes data pad pad' rest sl : list byte)
  (Hdims : 0 <= dims < 2 ^ 29)
  (Hf : Z.of_nat (length fbytes) = dims * 8)
  (Hdata : Z.of_nat (length data) = datalen)
  (Hpad : Z.of_nat (length pad) = padlen)
  (Hpad' : Z.of_nat (length pad') = padlen)
  (Hsum : datalen + padlen < 2 ^ 32) :
  exists q q',
    parsePoint (mkSlice (header_bytes dims datalen padlen
                           ++ fbytes ++ data ++ pad ++ rest) sl)
    = Done (q, mkSlice rest sl, None)
    /\ parsePoint (mkSlice (header_bytes dims datalen padlen
                              ++ fbytes ++ data ++ pad' ++ rest) sl)
       = Done (q', mkSlice rest sl, None)
    /\ Pos q = Pos q' /\ elems (Data q) = elems (Data q').
Proof.
  do 2 eexists.
  split; [apply parsePoint_layout; assumption|].
  split; [apply parsePoint_layout; assumption|].
  split; reflexivity.
Qed.

Lemma parsePoint_ignores_padding_example :
  exists q q',
    parsePoint (mkSlice (header_bytes 0 1 2 ++ [] ++ [Byte.xaa]
                           ++ [Byte.x00; Byte.x00] ++ [Byte.x07]) [])
    = Done (q, mkSlice [Byte.x07] [], None)
    /\ parsePoint (mkSlice (header_bytes 0 1 2 ++ [] ++ [Byte.xaa]
                              ++ [Byte.xff; Byte.xee] ++ [Byte.x07]) [])
       = Done (q', mkSlice [Byte.x07] [], None)
    /\ Pos q = Pos q' /\ elems (Data q) = elems (Data q').
Proof.
  apply (parsePoint_ignores_padding 0 1 2 [] [Byte.xaa]
           [Byte.x00; Byte.x00] [Byte.xff; Byte.xee] [Byte.x07] []);
    try reflexivity.
  split; [discriminate|reflexivity].
Defined.

(** X3: the [Data] of a decoded point is a view into the buffer, not a
    copy: behind its [dataLen] bytes its capacity holds the padding, every
    record that follows and the slack of the buffer, so an [append] to it
    would write over them. *)
Theorem parsePoint_Data_is_a_view (dims datalen padlen : Z)
  (fbytes data pad rest sl : list byte)
  (Hdims : 0 <= dims < 2 ^ 29)
  (Hf : Z.of_nat (length fbytes) = dims * 8)
  (Hdata : Z.of_nat (length data) = datalen)
  (Hpad : Z.of_nat (length pad) = padlen)
  (Hsum : datalen + padlen < 2 ^ 32) :
  exists q remaining,
    parsePoint (mkSlice (header_bytes dims datalen padlen
                           ++ fbytes ++ data ++ pad ++ rest) sl)
    = Done (q, remaining, None)
    /\ elems (Data q) = data
    /\ slack (Data q) = pad ++ rest ++ sl
    /\ cap (Data q) = datalen + padlen + cap remaining.
Proof.
  do 2 eexists. split; [apply parsePoint_layout; assumption|].
  cbn [Data elems slack]. repeat split.
  unfold cap. cbn [elems slack]. rewrite !length_app. lia.
Qed.

Lemma parsePoint_Data_is_a_view_example :
  exists q remaining,
    parsePoint (mkSlice (header_bytes 0 1 2 ++ [] ++ [Byte.xaa]
                           ++ [Byte.x00; Byte.x00] ++ [Byte.x07]) [Byte.x09])
    = Done (q, remaining, None)
    /\ elems (Data q) = [Byte.xaa]
    /\ slack (Data q) = [Byte.x00; Byte.x00] ++ [Byte.x07] ++ [Byte.x09]
    /\ cap (Data q) = 1 + 2 + cap remaining.
Proof.
  apply (parsePoint_Data_is_a_view 0 1 2 [] [Byte.xaa]
           [Byte.x00; Byte.x00] [Byte.x07] [Byte.x09]);
    try reflexivity.
  split; [discriminate|reflexivity].
Defined.

Lemma float64s_bytes_of_bytes n : forall bs,
  length bs = (8 * n)%nat ->
  binary.float64s_bytes (float64s_of_bytes n bs) = bs.
Proof.
  unfold binary.float64s_bytes.
  induction n as [|n IH]; intros bs Hlen.
  - destruct bs; [reflexivity|discriminate].
  - cbn [float64s_of_bytes flat_map].
    rewrite (split_le_combine' (firstn 8 bs) 8)
      by (rewrite length_firstn; lia).
    rewrite IH by (rewrite length_skipn; lia).
    apply firstn_skipn.
Qed.

(** X4: decoding and encoding again gives the record back.  On a record
    laid out as header, coordinates, data and a zero padding, the point
    [parsePoint] returns is written by [serialize], with
    [maxDataLen = dataLen + padLen], as the same bytes. *)
Theorem parsePoint_serialize_roundtrip (dims datalen padlen : Z)
  (fbytes data rest sl : list byte)
  (Hdims : 0 <= dims < 2 ^ 29)
  (Hf : Z.of_nat (length fbytes) = dims * 8)
  (Hdata : Z.of_nat (length data) = datalen)
  (Hpad : 0 <= padlen)
  (Hsum : datalen + padlen < 2 ^ 32) :
  exists q remaining,
    parsePoint (mkSlice ((header_bytes dims datalen padlen ++ fbytes ++ data
                            ++ repeat Byte.x00 (Z.to_nat padlen)) ++ rest) sl)
    = Done (q, remaining, None)
    /\ serialize q ([] : Buffer) (datalen + padlen)
       = (header_bytes dims datalen padlen ++ fbytes ++ data
            ++ repeat Byte.x00 (Z.to_nat padlen), None).
Proof.
  assert (HP : Z.of_nat (length (repeat Byte.x00 (Z.to_nat padlen))) = padlen)
    by (rewrite repeat_length; lia).
  do 2 eexists. split.
  { rewrite <- !app_assoc. apply parsePoint_layout; assumption. }
  rewrite serialize_Buffer by (unfold len; cbn [Data elems]; lia).
  cbn [app]. f_equal. unfold record_bytes, header_bytes, len.
  cbn [Pos Data elems of_list].
  rewrite length_float64s_of_bytes, Nat2Z.inj_div, Hf, Hdata.
  change (Z.of_nat 8) with 8. rewrite Z.div_mul by lia.
  rewrite padding_small by lia. rewrite !uint32_small by lia.
  replace (datalen + padlen - datalen) with padlen by lia.
  rewrite float64s_bytes_of_bytes.
  - now rewrite <- !app_assoc.
  - assert (Hn : (length fbytes = Z.to_nat dims * 8)%nat) by lia.
    rewrite Hn, Nat.div_mul by discriminate. lia.
Qed.

Lemma parsePoint_serialize_roundtrip_example :
  exists q remaining,
    parsePoint (mkSlice ((header_bytes 1 1 2 ++ binary.float64s_bytes [one]
                            ++ [Byte.xaa] ++ repeat Byte.x00 (Z.to_nat 2))
                           ++ [Byte.x07]) [])
    = Done (q, remaining, None)
    /\ serialize q ([] : Buffer) (1 + 2)
       = (header_bytes 1 1 2 ++ binary.float64s_bytes [one] ++ [Byte.xaa]
            ++ repeat Byte.x00 (Z.to_nat 2), None).
Proof.
  apply (parsePoint_serialize_roundtrip 1 1 2 (binary.float64s_bytes [one])
           [Byte.xaa] [Byte.x07] []); try reflexivity.
  - split; [discriminate|reflexivity].
  - discriminate.
Defined.

(** X5: [serialize] is injective on points that fit: two of them with the
    same bytes under one [maxDataLen] have the same coordinate patterns
    and the same data. *)
Theorem encode_injective (maxDataLen : Z) (p p' : Point)
  (Hp : fits maxDataLen p) (Hp' : fits maxDataLen p')
  (Hsame : encode maxDataLen p = encode maxDataLen p') :
  elems (Pos p) = elems (Pos p') /\ elems (Data p) = elems (Data p').
Proof.
  pose proof Hp as (_ & _ & Hle & _). pose proof Hp' as (_ & _ & Hle' & _).
  rewrite !encode_record_bytes in Hsame by assumption.
  pose proof (parsePoint_encoded p maxDataLen [] [] Hp) as H1.
  pose proof (parsePoint_encoded p' maxDataLen [] [] Hp') as H2.
  rewrite Hsame, H2 in H1. injection H1 as HP HD _. auto.
Qed.

Lemma encode_injective_example :
  elems (Pos (mkPoint (of_list [one]) (of_list [Byte.xaa])))
  = elems (Pos (mkPoint (mkSlice [one] [two]) (mkSlice [Byte.xaa] [Byte.xbb])))
  /\ elems (Data (mkPoint (of_list [one]) (of_list [Byte.xaa])))
     = elems (Data (mkPoint (mkSlice [one] [two]) (mkSlice [Byte.xaa] [Byte.xbb]))).
Proof.
  apply (encode_injective 4); try (apply fitsb_fits; vm_compute; reflexivity).
  vm_compute. reflexivity.
Defined.
(** ** A dataset in one buffer: addressing records by stride *)

Lemma serializeAll_Buffer (maxDataLen : Z) (ps : list Point) : forall b : Buffer,
  Forall (fits maxDataLen) ps ->
  serializeAll ps b maxDataLen = (b ++ concat (map (encode maxDataLen) ps), None).
Proof.
  induction ps as [|p ps IH]; intros b Hfits; cbn [serializeAll map concat].
  - now rewrite app_nil_r.
  - inversion Hfits as [|? ? Hp Hps]; subst. pose proof Hp as (_ & _ & Hle & _).
    rewrite serialize_Buffer by exact Hle.
    rewrite IH by exact Hps. rewrite encode_record_bytes by exact Hle.
    now rewrite <- app_assoc.
Qed.

Lemma pointSize_exact dims maxDataLen :
  0 <= dims < 2 ^ 29 -> 0 <= maxDataLen < 2 ^ 32 ->
  pointSize dims maxDataLen = 13 + dims * 8 + maxDataLen.
Proof.
  intros Hd Hm. unfold pointSize, int_add, int_mul, float64Size, uint32Size.
  rewrite (int_small (dims * 8)) by lia.
  rewrite (int_small (1 + 4 * 3 + _)) by lia.
  rewrite int_small by lia. lia.
Qed.

Lemma length_encode_fits (maxDataLen : Z) (p : Point) :
  fits maxDataLen p ->
  Z.of_nat (length (encode maxDataLen p)) = pointSize (len (Pos p)) maxDataLen.
Proof.
  intros (_ & Hd & Hle & Hm).
  pose proof (len_nonneg (Pos p)). pose proof (len_nonneg (Data p)).
  rewrite encode_record_bytes by exact Hle.
  rewrite length_record_bytes, padding_small, pointSize_exact by lia. lia.
Qed.

Lemma length_concat_encode (maxDataLen dims : Z) (ps : list Point) :
  Forall (fits maxDataLen) ps ->
  Forall (fun p => len (Pos p) = dims) ps ->
  Z.of_nat (length (concat (map (encode maxDataLen) ps)))
  = Z.of_nat (length ps) * pointSize dims maxDataLen.
Proof.
  induction ps as [|p ps IH]; intros Hfits Hdims; [reflexivity|].
  inversion Hfits; subst. inversion Hdims; subst.
  cbn [map concat length]. rewrite length_app, Nat2Z.inj_add, IH by assumption.
  rewrite length_encode_fits by assumption. lia.
Qed.

(** X6: fixed-stride addressing.  When points of one dimension [D] that
    fit [maxDataLen] are serialized one after the other into a buffer, the
    slice of the buffer from offset [i * pointSize(D, maxDataLen)] starts
    with the record of point [i]: [parsePoint] on it gives back its
    coordinate patterns and its data (a point equal to it under [equal]
    when it has no NaN coordinate). *)
Theorem record_at_stride (maxDataLen dims : Z) (ps : list Point) (i : nat)
  (p : Point) (sl : list byte)
  (Hfits : Forall (fits maxDataLen) ps)
  (Hdims : Forall (fun p => len (Pos p) = dims) ps)
  (Hi : nth_error ps i = Some p) :
  exists buf s q remaining,
    serializeAll ps ([] : Buffer) maxDataLen = (buf, None)
    /\ slice_from (mkSlice buf sl) (Z.of_nat i * pointSize dims maxDataLen) = Done s
    /\ parsePoint s = Done (q, remaining, None)
    /\ elems (Pos q) = elems (Pos p)
    /\ elems (Data q) = elems (Data p)
    /\ (no_NaN p -> equal q p = Done true).
Proof.
  destruct (nth_error_split ps i Hi) as (ps1 & ps2 & -> & Hlen).
  apply Forall_app in Hfits. destruct Hfits as (Hfits1 & Hfits2).
  apply Forall_app in Hdims. destruct Hdims as (Hdims1 & _).
  inversion Hfits2 as [|? ? Hp _]; subst.
  pose proof Hp as (_ & _ & Hle & _).
  exists (concat (map (encode maxDataLen) (ps1 ++ p :: ps2))),
         (mkSlice (encode maxDataLen p ++ concat (map (encode maxDataLen) ps2)) sl).
  do 2 eexists.
  split; [apply serializeAll_Buffer, Forall_app; split; assumption|].
  split.
  { rewrite map_app, concat_app. cbn [map concat].
    rewrite <- (length_concat_encode maxDataLen dims ps1 Hfits1 Hdims1).
    apply slice_from_app. }
  split.
  { rewrite encode_record_bytes by exact Hle.
    apply (parsePoint_encoded p maxDataLen _ sl Hp). }
  cbn [Pos Data elems of_list].
  repeat split. intros Hnan. now apply equal_same_contents.
Qed.

(** X6 on three points of the plane with different payloads: the record
    at twice the stride is the third one. *)
Lemma record_at_stride_example :
  exists buf s q remaining,
    serializeAll
      [mkPoint (of_list [one; two]) (of_list [Byte.xaa; Byte.xbb]);
       mkPoint (of_list [two; pos_zero]) (of_list []);
       mkPoint (of_list [neg_zero; one]) (of_list [Byte.x01; Byte.x02; Byte.x03])]
      ([] : Buffer) 3 = (buf, None)
    /\ slice_from (mkSlice buf []) (Z.of_nat 2 * pointSize 2 3) = Done s
    /\ parsePoint s = Done (q, remaining, None)
    /\ elems (Pos q) = [neg_zero; one]
    /\ elems (Data q) = [Byte.x01; Byte.x02; Byte.x03]
    /\ (no_NaN (mkPoint (of_list [neg_zero; one])
                  (of_list [Byte.x01; Byte.x02; Byte.x03])) ->
        equal q (mkPoint (of_list [neg_zero; one])
                   (of_list [Byte.x01; Byte.x02; Byte.x03])) = Done true).
Proof.
  apply (record_at_stride 3 2
           [mkPoint (of_list [one; two]) (of_list [Byte.xaa; Byte.xbb]);
            mkPoint (of_list [two; pos_zero]) (of_list []);
            mkPoint (of_list [neg_zero; one]) (of_list [Byte.x01; Byte.x02; Byte.x03])]
           2 (mkPoint (of_list [neg_zero; one])
                (of_list [Byte.x01; Byte.x02; Byte.x03])) []).
  - repeat (apply Forall_cons; [apply fitsb_fits; vm_compute; reflexivity|]).
    apply Forall_nil.
  - repeat (apply Forall_cons; [reflexivity|]). apply Forall_nil.
  - reflexivity.
Defined.
(** ** Reading records from a stream *)

Lemma ReadFull_bytes_exact (h t : list byte) :
  ReadFull (h ++ t : BytesReader) (Z.of_nat (length h)) = (t, (h, None)).
Proof.
  cbn [ReadFull BytesReader_Reader]. destruct h as [|b h].
  - reflexivity.
  - replace (Z.of_nat (length (b :: h)) <=? 0) with false
      by (symmetry; apply Z.leb_gt; cbn [length]; lia).
    replace (Z.of_nat (length (b :: h)) <=? Z.of_nat (length ((b :: h) ++ t)))
      with true by (symmetry; apply Z.leb_le; rewrite length_app; lia).
    rewrite Nat2Z.id, skipn_app, firstn_app, Nat.sub_diag, skipn_all, firstn_all.
    cbn [skipn firstn]. now rewrite app_nil_r.
Qed.

Lemma ReadFull_bytes_short (r : list byte) (n : Z) :
  Z.of_nat (length r) < n ->
  ReadFull (r : BytesReader) n
  = ([], (r, Some match r with [] => EOF | _ => ErrUnexpectedEOF end)).
Proof.
  intros H. cbn [ReadFull BytesReader_Reader].
  replace (n <=? 0) with false by (symmetry; apply Z.leb_gt; lia).
  replace (n <=? Z.of_nat (length r)) with false by (symmetry; apply Z.leb_gt; lia).
  destruct r; reflexivity.
Qed.

Lemma filled_exact (bs : list byte) : filled (length bs) bs = bs.
Proof.
  unfold filled. rewrite Nat.sub_diag. cbn [repeat]. rewrite app_nil_r.
  apply firstn_all.
Qed.

Lemma length_header_bytes dims datalen padlen :
  length (header_bytes dims datalen padlen) = 13%nat.
Proof.
  unfold header_bytes. rewrite !length_app, !length_uint32_bytes. reflexivity.
Qed.

Lemma parsePointHeader_header_bytes dims datalen padlen :
  0 <= dims < 2 ^ 32 -> 0 <= datalen < 2 ^ 32 -> 0 <= padlen < 2 ^ 32 ->
  parsePointHeader (of_list (header_bytes dims datalen padlen))
  = Done (dims, datalen, padlen, nil_slice, None).
Proof.
  intros H1 H2 H3.
  pose proof (parsePointHeader_encoded dims datalen padlen [] [] H1 H2 H3) as H.
  unfold header_bytes, of_list. now rewrite app_nil_r in H.
Qed.

(** The first two reads of [parsePointFromReader] on a stream that starts
    with a header. *)
Lemma parsePointFromReader_after_header dims datalen padlen (rest : list byte) :
  0 <= dims < 2 ^ 32 -> 0 <= datalen < 2 ^ 32 -> 0 <= padlen < 2 ^ 32 ->
  parsePointFromReader (header_bytes dims datalen padlen ++ rest : BytesReader)
  = let n := recordLen dims datalen padlen in
    let '(r, (got, err)) := ReadFull (rest : BytesReader) (n - headerLen) in
    match err with
    | Some _ => (r, Done (zeroPoint, 0, err))
    | None =>
        match parsePoint (of_list (header_bytes dims datalen padlen
                                     ++ filled (Z.to_nat (n - headerLen)) got)) with
        | Panicked p => (r, Panicked p)
        | Done (rv, _, err) => (r, Done (rv, int (uint32_add datalen padlen), err))
        end
    end.
Proof.
  intros H1 H2 H3. unfold parsePointFromReader.
  change headerLen with (Z.of_nat 13) at 1.
  rewrite <- (length_header_bytes dims datalen padlen) at 1.
  rewrite ReadFull_bytes_exact.
  change (Z.to_nat headerLen) with 13%nat.
  rewrite <- (length_header_bytes dims datalen padlen) at 1.
  rewrite filled_exact, parsePointHeader_header_bytes by assumption.
  reflexivity.
Qed.

Lemma record_bytes_layout (p : Point) (maxDataLen : Z) :
  record_bytes p maxDataLen
  = header_bytes (uint32 (len (Pos p))) (uint32 (len (Data p)))
      (uint32 (int_sub maxDataLen (len (Data p))))
    ++ (binary.float64s_bytes (elems (Pos p)) ++ elems (Data p)
        ++ repeat Byte.x00 (Z.to_nat (uint32 (int_sub maxDataLen (len (Data p)))))).
Proof. unfold record_bytes, header_bytes. now rewrite <- !app_assoc. Qed.

(** X7: the stream round trip.  On a stream that starts with the record
    [serialize] wrote for a point that fits, [parsePointFromReader] reads
    that record and no more (the reader is left at what follows), gives
    back the coordinate patterns and the data, and reports [maxDataLen]
    itself as its second result. *)
Theorem parsePointFromReader_roundtrip (p : Point) (maxDataLen : Z)
  (more : list byte) (Hfits : fits maxDataLen p) :
  exists q,
    parsePointFromReader (encode maxDataLen p ++ more : BytesReader)
    = (more, Done (q, maxDataLen, None))
    /\ elems (Pos q) = elems (Pos p)
    /\ elems (Data q) = elems (Data p)
    /\ (no_NaN p -> equal q p = Done true).
Proof.
  pose proof Hfits as (Hwf & Hd & Hle & Hm).
  pose proof (len_nonneg (Pos p)) as HP. pose proof (len_nonneg (Data p)) as HD.
  pose proof (parsePoint_encoded p maxDataLen [] [] Hfits) as Hparse.
  rewrite app_nil_r in Hparse.
  rewrite encode_record_bytes by exact Hle.
  rewrite record_bytes_layout in *.
  rewrite padding_small in * by lia. rewrite !uint32_small in * by lia.
  set (body := binary.float64s_bytes (elems (Pos p)) ++ elems (Data p)
               ++ repeat Byte.x00 (Z.to_nat (maxDataLen - len (Data p)))) in *.
  assert (Hbody : Z.of_nat (length body) = len (Pos p) * 8 + maxDataLen).
  { unfold body. rewrite !length_app, length_float64s_bytes, repeat_length.
    unfold len in *. lia. }
  assert (Hn : recordLen (len (Pos p)) (len (Data p)) (maxDataLen - len (Data p))
               - headerLen = Z.of_nat (length body)).
  { rewrite recordLen_exact by lia. unfold uint32_add.
    rewrite uint32_small by lia. lia. }
  rewrite <- app_assoc.
  rewrite parsePointFromReader_after_header by lia. cbv zeta.
  rewrite Hn, ReadFull_bytes_exact, Nat2Z.id, filled_exact.
  unfold of_list in Hparse |- *. rewrite Hparse.
  eexists. split.
  { unfold uint32_add. rewrite uint32_small, int_small by lia.
    f_equal. f_equal. f_equal. f_equal. lia. }
  cbn [Pos Data elems]. repeat split.
  intros Hnan. now apply equal_same_contents.
Qed.

Lemma parsePointFromReader_roundtrip_example :
  exists q,
    parsePointFromReader
      (encode 4 (mkPoint (of_list [one; two]) (of_list [Byte.xaa; Byte.xbb]))
       ++ [Byte.x07] : BytesReader)
    = ([Byte.x07], Done (q, 4, None))
    /\ elems (Pos q) = [one; two]
    /\ elems (Data q) = [Byte.xaa; Byte.xbb]
    /\ (no_NaN (mkPoint (of_list [one; two]) (of_list [Byte.xaa; Byte.xbb])) ->
        equal q (mkPoint (of_list [one; two]) (of_list [Byte.xaa; Byte.xbb]))
        = Done true).
Proof.
  apply (parsePointFromReader_roundtrip
           (mkPoint (of_list [one; two]) (of_list [Byte.xaa; Byte.xbb])) 4 [Byte.x07]).
  apply fitsb_fits. vm_compute. reflexivity.
Defined.

(** X8: a stream that ends inside a record.  When the bytes after a
    header are fewer than the [dims*8 + dataLen + padLen] the header asks
    for, [parsePointFromReader] returns the reader's error as it is and
    the zero point: [ErrUnexpectedEOF] when some of the body is there, and
    [EOF], the error of a clean end of input, when the stream ends right
    after the header. *)
Theorem parsePointFromReader_truncated_body (dims datalen padlen : Z)
  (body : list byte)
  (Hdims : 0 <= dims < 2 ^ 32) (Hdatalen : 0 <= datalen < 2 ^ 32)
  (Hpadlen : 0 <= padlen < 2 ^ 32)
  (Hshort : Z.of_nat (length body) < dims * 8 + uint32_add datalen padlen) :
  parsePointFromReader (header_bytes dims datalen padlen ++ body : BytesReader)
  = ([], Done (zeroPoint, 0,
               Some match body with [] => EOF | _ => ErrUnexpectedEOF end)).
Proof.
  rewrite parsePointFromReader_after_header by assumption. cbv zeta.
  rewrite recordLen_exact by assumption.
  rewrite ReadFull_bytes_short by lia. reflexivity.
Qed.

(** X8 on a header that asks for 2^32 bytes of coordinates, alone and
    followed by one byte. *)
Lemma parsePointFromReader_truncated_body_example :
  parsePointFromReader (header_bytes (2 ^ 29) 0 0 ++ [] : BytesReader)
  = ([], Done (zeroPoint, 0, Some EOF)).
Proof.
  apply (parsePointFromReader_truncated_body (2 ^ 29) 0 0 []).
  - split; [discriminate|reflexivity].
  - split; [discriminate|reflexivity].
  - split; [discriminate|reflexivity].
  - reflexivity.
Defined.
(** ** The two decoders on one header *)

(** [parsePointFromReader] after its first read, on any reader that
    delivered a header. *)
Lemma parsePointFromReader_after_header_any {R} `{Reader R} (r r' : R)
  dims datalen padlen :
  0 <= dims < 2 ^ 32 -> 0 <= datalen < 2 ^ 32 -> 0 <= padlen < 2 ^ 32 ->
  ReadFull r headerLen = (r', (header_bytes dims datalen padlen, None)) ->
  parsePointFromReader r
  = let n := recordLen dims datalen padlen in
    let '(r2, (got, err)) := ReadFull r' (n - headerLen) in
    match err with
    | Some _ => (r2, Done (zeroPoint, 0, err))
    | None =>
        match parsePoint (of_list (header_bytes dims datalen padlen
                                     ++ filled (Z.to_nat (n - headerLen)) got)) with
        | Panicked p => (r2, Panicked p)
        | Done (rv, _, err) => (r2, Done (rv, int (uint32_add datalen padlen), err))
        end
    end.
Proof.
  intros H1 H2 H3 Hread. unfold parsePointFromReader. rewrite Hread.
  change (Z.to_nat headerLen) with 13%nat.
  rewrite <- (length_header_bytes dims datalen padlen) at 1.
  rewrite filled_exact, parsePointHeader_header_bytes by assumption.
  reflexivity.
Qed.

Lemma ReadFull_bytes_enough (r : list byte) (n : Z) :
  0 <= n <= Z.of_nat (length r) ->
  ReadFull (r : BytesReader) n
  = (skipn (Z.to_nat n) r, (firstn (Z.to_nat n) r, None)).
Proof.
  intros Hn. cbn [ReadFull BytesReader_Reader].
  destruct (Z.leb_spec n 0) as [H0|H0].
  - replace n with 0 by lia. reflexivity.
  - replace (n <=? Z.of_nat (length r)) with true by (symmetry; apply Z.leb_le; lia).
    reflexivity.
Qed.

(** C10: for a header with [dims >= 2^29], [parsePoint] counts the
    coordinate bytes as [dims * 8] modulo 2^32, which is less than
    [dims * 8]; a successful [parsePoint] has decoded that many bytes into
    coordinates and taken that many, plus the data and padding, from the
    body (no coordinate at all for [dims = 2^29]).
    [parsePointFromReader] sizes its buffer with the product [dims * 8]
    itself: on any reader that delivered this header it goes on to read
    [dims * 8] bytes plus the data and padding, more than [parsePoint]
    takes.  So on the very bytes [parsePoint] decodes, read as a stream,
    [parsePointFromReader] returns the reader's end-of-input error when
    fewer than that many follow the header, and otherwise leaves the
    stream that many bytes further. *)
Theorem decoders_disagree_on_coordinate_bytes
  (dims datalen padlen : Z) (body sl : list byte) (q : Point)
  (remaining : slice byte) (err : option error)
  (Hdims : 2 ^ 29 <= dims < 2 ^ 32)
  (Hdatalen : 0 <= datalen < 2 ^ 32) (Hpadlen : 0 <= padlen < 2 ^ 32)
  (Hparse : parsePoint (mkSlice (header_bytes dims datalen padlen ++ body) sl)
            = Done (q, remaining, err)) :
  uint32_mul dims float64Size = (dims * 8) mod 2 ^ 32
  /\ uint32_mul dims float64Size < dims * 8
  /\ len (Pos q) * 8 = uint32_mul dims float64Size
  /\ Z.of_nat (length body) - len remaining
     = uint32_mul dims float64Size + uint32_add datalen padlen
  /\ recordLen dims datalen padlen - headerLen
     = dims * 8 + uint32_add datalen padlen
  /\ Z.of_nat (length body) - len remaining
     < recordLen dims datalen padlen - headerLen
  /\ (dims = 2 ^ 29 -> len (Pos q) = 0)
  /\ (forall R (HR : Reader R) (r r' : R),
        ReadFull r headerLen = (r', (header_bytes dims datalen padlen, None)) ->
        fst (parsePointFromReader r)
        = fst (ReadFull r' (dims * 8 + uint32_add datalen padlen)))
  /\ (Z.of_nat (length body) < dims * 8 + uint32_add datalen padlen ->
      parsePointFromReader (header_bytes dims datalen padlen ++ body : BytesReader)
      = ([], Done (zeroPoint, 0,
                   Some match body with [] => EOF | _ => ErrUnexpectedEOF end)))
  /\ (dims * 8 + uint32_add datalen padlen <= Z.of_nat (length body) ->
      fst (parsePointFromReader
             (header_bytes dims datalen padlen ++ body : BytesReader))
      = skipn (Z.to_nat (dims * 8 + uint32_add datalen padlen)) body).
Proof.
  assert (Hhdr : parsePointHeader (mkSlice (header_bytes dims datalen padlen ++ body) sl)
                 = Done (dims, datalen, padlen, mkSlice body sl, None)).
  { unfold header_bytes. rewrite <- !app_assoc.
    apply parsePointHeader_encoded; lia. }
  destruct (parsePoint_consumed _ _ _ _ _ _ _ _ Hhdr Hparse) as (_ & HP & Hrem).
  rewrite len_mkSlice in Hrem.
  assert (Hn : recordLen dims datalen padlen - headerLen
               = dims * 8 + uint32_add datalen padlen)
    by (rewrite recordLen_exact by lia; lia).
  pose proof (uint32_range (datalen + padlen)) as Hs.
  fold (uint32_add datalen padlen) in Hs.
  assert (Hmod : uint32_mul dims float64Size = (dims * 8) mod 2 ^ 32) by reflexivity.
  assert (Hlt : uint32_mul dims float64Size < dims * 8).
  { rewrite Hmod. pose proof (Z.mod_pos_bound (dims * 8) (2 ^ 32) eq_refl). lia. }
  assert (H8 : uint32_mul dims float64Size = 8 * (dims mod 2 ^ 29)).
  { rewrite Hmod. rewrite (Z.mul_comm dims 8).
    change (2 ^ 32) with (8 * 2 ^ 29). rewrite Z.mul_mod_distr_l by lia. reflexivity. }
  split; [exact Hmod|]. split; [exact Hlt|].
  split; [rewrite HP, H8, (Z.mul_comm 8), Z.div_mul by lia; lia|].
  split; [exact Hrem|]. split; [exact Hn|]. split; [lia|].
  split; [intros ->; rewrite HP, H8, Z.mod_same by lia; reflexivity|].
  split; [|split].
  - intros R HR r r' Hread.
    rewrite (parsePointFromReader_after_header_any r r' dims datalen padlen)
      by (assumption || lia).
    cbv zeta. rewrite Hn.
    destruct (ReadFull r' _) as [r2 [got [e|]]]; [reflexivity|].
    match goal with
    | |- context [match ?X with Done _ => _ | Panicked _ => _ end] =>
        destruct X as [[[rv rem] e]|pn]; reflexivity
    end.
  - intros Hshort.
    rewrite parsePointFromReader_after_header by lia. cbv zeta.
    rewrite Hn, ReadFull_bytes_short by lia. reflexivity.
  - intros Hlong.
    rewrite parsePointFromReader_after_header by lia. cbv zeta.
    rewrite Hn, ReadFull_bytes_enough by lia.
    match goal with
    | |- context [match ?X with Done _ => _ | Panicked _ => _ end] =>
        destruct X as [[[rv rem] e]|pn]; reflexivity
    end.
Qed.

(** C10 on a buffer that is nothing but a header with [dims = 2^29]:
    [parsePoint] succeeds on it with no coordinate and nothing left over,
    while [parsePointFromReader] on the same thirteen bytes wants [2^32]
    more and returns [EOF]. *)
Lemma decoders_disagree_example :
  parsePoint (mkSlice (header_bytes (2 ^ 29) 0 0 ++ []) [])
  = Done (mkPoint (of_list []) nil_slice, nil_slice, None)
  /\ uint32_mul (2 ^ 29) float64Size = (2 ^ 29 * 8) mod 2 ^ 32
  /\ uint32_mul (2 ^ 29) float64Size < 2 ^ 29 * 8
  /\ len (Pos (mkPoint (of_list []) nil_slice)) * 8 = uint32_mul (2 ^ 29) float64Size
  /\ Z.of_nat (length (@nil byte)) - len (@nil_slice byte)
     = uint32_mul (2 ^ 29) float64Size + uint32_add 0 0
  /\ recordLen (2 ^ 29) 0 0 - headerLen = 2 ^ 29 * 8 + uint32_add 0 0
  /\ Z.of_nat (length (@nil byte)) - len (@nil_slice byte)
     < recordLen (2 ^ 29) 0 0 - headerLen
  /\ (2 ^ 29 = 2 ^ 29 -> len (Pos (mkPoint (of_list []) nil_slice)) = 0)
  /\ (forall R (HR : Reader R) (r r' : R),
        ReadFull r headerLen = (r', (header_bytes (2 ^ 29) 0 0, None)) ->
        fst (parsePointFromReader r)
        = fst (ReadFull r' (2 ^ 29 * 8 + uint32_add 0 0)))
  /\ parsePointFromReader (header_bytes (2 ^ 29) 0 0 ++ [] : BytesReader)
     = ([], Done (zeroPoint, 0, Some EOF)).
Proof.
  assert (Hparse : parsePoint (mkSlice (header_bytes (2 ^ 29) 0 0 ++ []) [])
                   = Done (mkPoint (of_list []) nil_slice, nil_slice, None))
    by (vm_compute; reflexivity).
  split; [exact Hparse|].
  destruct (decoders_disagree_on_coordinate_bytes (2 ^ 29) 0 0 [] []
              (mkPoint (of_list []) nil_slice) nil_slice None)
    as (H1 & H2 & H3 & H4 & H5 & H6 & H7 & H8 & H9 & _).
  - split; [discriminate|reflexivity].
  - split; [discriminate|reflexivity].
  - split; [discriminate|reflexivity].
  - exact Hparse.
  - repeat (split; [assumption|]). apply H9. reflexivity.
Defined.
(** ** When the header decoder returns a header *)

Lemma index_in_Done {A} (s : slice A) i :
  0 <= i < len s -> exists x, index s i = Done x.
Proof. intros H. destruct (index_in s i H) as (x & Hx & _). eauto. Qed.

Lemma Uint32_in (b : slice byte) :
  4 <= len b -> binary.Uint32 b = Done (le_combine (firstn 4 (elems b))).
Proof.
  intros H. unfold binary.Uint32.
  destruct (index_in_Done b 3) as (x & ->); [lia|]. reflexivity.
Qed.

Lemma Uint32_short (b : slice byte) :
  len b < 4 -> binary.Uint32 b = Panicked IndexOutOfRange.
Proof.
  intros H. unfold binary.Uint32. rewrite index_out by lia. reflexivity.
Qed.

Lemma len_skipn {A} (l sl : list A) n :
  len (mkSlice (skipn n l) sl) = Z.of_nat (length l - n).
Proof. unfold len. cbn [elems]. now rewrite length_skipn. Qed.

(** The header of a buffer of 13 bytes or more that starts with 0. *)
Lemma parsePointHeader_long buf rest :
  elems buf = Byte.x00 :: rest -> 13 <= len buf ->
  parsePointHeader buf
  = Done (le_combine (firstn 4 rest),
          le_combine (firstn 4 (skipn 4 rest)),
          le_combine (firstn 4 (skipn 8 rest)),
          mkSlice (skipn 12 rest) (slack buf), None).
Proof.
  destruct buf as [l sl]. cbn [elems slack]. intros -> H.
  unfold len in H. cbn [elems length] in H.
  unfold parsePointHeader. rewrite index_head. cbn [bind].
  change (Byte.eqb Byte.x00 Byte.x00) with true. cbn [negb].
  rewrite slice_from_tail. cbn [bind].
  rewrite Uint32_in by (rewrite len_mkSlice; lia). cbn [bind elems].
  rewrite slice_from_in by (rewrite len_mkSlice; unfold uint32Size; lia).
  cbn [bind elems slack]. change (Z.to_nat uint32Size) with 4%nat.
  rewrite Uint32_in by (rewrite len_skipn; lia). cbn [bind elems].
  rewrite slice_from_in by (rewrite len_skipn; unfold uint32Size; lia).
  cbn [bind elems slack]. change (Z.to_nat uint32Size) with 4%nat.
  rewrite Uint32_in by (rewrite skipn_skipn, len_skipn; lia). cbn [bind elems].
  rewrite slice_from_in by (rewrite skipn_skipn, len_skipn; unfold uint32Size; lia).
  cbn [bind elems slack]. change (Z.to_nat uint32Size) with 4%nat.
  rewrite !skipn_skipn. reflexivity.
Qed.

(** A buffer of fewer than 13 bytes that starts with 0. *)
Lemma parsePointHeader_short buf rest :
  elems buf = Byte.x00 :: rest -> len buf < 13 ->
  parsePointHeader buf = Panicked IndexOutOfRange.
Proof.
  destruct buf as [l sl]. cbn [elems slack]. intros -> H.
  unfold len in H. cbn [elems length] in H.
  unfold parsePointHeader. rewrite index_head. cbn [bind].
  change (Byte.eqb Byte.x00 Byte.x00) with true. cbn [negb].
  rewrite slice_from_tail. cbn [bind].
  destruct (Z_lt_le_dec (Z.of_nat (length rest)) 4) as [H4|H4].
  { rewrite Uint32_short by (rewrite len_mkSlice; lia). reflexivity. }
  rewrite Uint32_in by (rewrite len_mkSlice; lia). cbn [bind elems].
  rewrite slice_from_in by (rewrite len_mkSlice; unfold uint32Size; lia).
  cbn [bind elems slack]. change (Z.to_nat uint32Size) with 4%nat.
  destruct (Z_lt_le_dec (Z.of_nat (length rest)) 8) as [H8|H8].
  { rewrite Uint32_short by (rewrite len_skipn; lia). reflexivity. }
  rewrite Uint32_in by (rewrite len_skipn; lia). cbn [bind elems].
  rewrite slice_from_in by (rewrite len_skipn; unfold uint32Size; lia).
  cbn [bind elems slack]. change (Z.to_nat uint32Size) with 4%nat.
  rewrite Uint32_short by (rewrite skipn_skipn, len_skipn; lia). reflexivity.
Qed.

(** X9: [parsePointHeader] returns a header exactly when the buffer has at
    least 13 bytes and starts with the version byte 0.  Otherwise: on an
    empty buffer and on a buffer of fewer than 13 bytes that starts with 0
    it panics with an index out of range; on a first byte that is not 0 it
    returns the invalid-version error, however short the buffer. *)
Theorem parsePointHeader_returns_header_iff (buf : slice byte) :
  ((exists dims datalen padlen body,
       parsePointHeader buf = Done (dims, datalen, padlen, body, None))
   <-> 13 <= len buf /\ hd_error (elems buf) = Some Byte.x00)
  /\ (len buf < 13 ->
      hd_error (elems buf) = None \/ hd_error (elems buf) = Some Byte.x00 ->
      parsePointHeader buf = Panicked IndexOutOfRange)
  /\ (forall b, hd_error (elems buf) = Some b -> b <> Byte.x00 ->
      parsePointHeader buf = Done (0, 0, 0, nil_slice, Some UnsupportedVersion)).
Proof.
  assert (Hshort : len buf < 13 ->
            hd_error (elems buf) = None \/ hd_error (elems buf) = Some Byte.x00 ->
            parsePointHeader buf = Panicked IndexOutOfRange).
  { intros Hlen [Hhd|Hhd].
    - unfold parsePointHeader. rewrite index_out; [reflexivity|].
      unfold len. destruct (elems buf); [cbn [length]; lia|discriminate].
    - destruct (elems buf) as [|b rest] eqn:E; [discriminate|].
      injection Hhd as ->. exact (parsePointHeader_short buf rest E Hlen). }
  assert (Hbad : forall b, hd_error (elems buf) = Some b -> b <> Byte.x00 ->
            parsePointHeader buf = Done (0, 0, 0, nil_slice, Some UnsupportedVersion)).
  { intros b Hhd Hb. destruct buf as [[|b' rest] sl]; [discriminate|].
    injection Hhd as ->. now apply parsePointHeader_bad_version. }
  split; [|split; assumption]. split.
  - intros (dims & datalen & padlen & body & H).
    pose proof (parsePointHeader_Done _ _ _ _ _ H) as (H13 & _).
    split; [exact H13|].
    destruct (elems buf) as [|b rest] eqn:E.
    { unfold len in H13. rewrite E in H13. cbn [length] in H13. lia. }
    cbn [hd_error]. destruct (Byte.byte_eq_dec b Byte.x00) as [->|Hb]; [reflexivity|].
    rewrite (Hbad b) in H by (rewrite ?E; auto). discriminate.
  - intros (H13 & Hhd).
    destruct (elems buf) as [|b rest] eqn:E; [discriminate|].
    injection Hhd as ->. rewrite (parsePointHeader_long buf rest E H13). eauto.
Qed.

(** ** parsePointFromReader and panics *)

(** [parsePoint] returns when the three slices it takes are in range. *)
Lemma parsePoint_in_range buf body dims datalen padlen :
  parsePointHeader buf = Done (dims, datalen, padlen, body, None) ->
  uint32_mul dims float64Size <= len body ->
  datalen <= len body - uint32_mul dims float64Size ->
  uint32_add datalen padlen <= len body - uint32_mul dims float64Size ->
  exists q remaining, parsePoint buf = Done (q, remaining, None).
Proof.
  intros Hhdr HP Hdl Hsum.
  pose proof (parsePointHeader_Done _ _ _ _ _ Hhdr) as (_ & _ & Hd & Hdl' & Hpl).
  pose proof (uint32_range (dims * float64Size)) as HPr.
  pose proof (uint32_range (datalen + padlen)) as Hsr.
  unfold parsePoint. rewrite Hhdr. cbn [bind].
  fold (uint32_mul dims float64Size) in HPr. fold (uint32_add datalen padlen) in Hsr.
  rewrite slice_to_in by lia. cbn [bind]. unfold readFloats. cbv iota beta.
  rewrite slice_from_in by lia. cbn [bind].
  set (body' := mkSlice _ (slack body)).
  assert (Hlen' : len body' = len body - uint32_mul dims float64Size).
  { unfold body', len in *. cbn [elems]. rewrite length_skipn. lia. }
  rewrite slice_to_in by lia. cbn [bind].
  rewrite slice_from_in by lia. cbn [bind]. eauto.
Qed.

Lemma length_filled n bs : length (filled n bs) = n.
Proof.
  unfold filled. rewrite length_firstn, length_app, repeat_length. lia.
Qed.

(** X10: on a stream of bytes [parsePointFromReader] never panics when the
    [dataLen + padLen] of the header it reads does not wrap around 2^32:
    it returns, with a point or with an error, whatever the bytes are and
    however large [dims] is. *)
Theorem parsePointFromReader_no_panic (dims datalen padlen : Z) (rest : list byte)
  (Hdims : 0 <= dims < 2 ^ 32) (Hdatalen : 0 <= datalen < 2 ^ 32)
  (Hpadlen : 0 <= padlen < 2 ^ 32)
  (Hsum : datalen + padlen < 2 ^ 32) :
  exists r result,
    parsePointFromReader (header_bytes dims datalen padlen ++ rest : BytesReader)
    = (r, Done result).
Proof.
  rewrite parsePointFromReader_after_header by assumption. cbv zeta.
  rewrite recordLen_exact by assumption.
  pose proof (uint32_range (dims * float64Size)) as HPr.
  assert (Hs : uint32_add datalen padlen = datalen + padlen)
    by (unfold uint32_add; apply uint32_small; lia).
  assert (HP : uint32_mul dims float64Size <= dims * 8).
  { unfold uint32_mul, uint32, float64Size. apply Z.mod_le; lia. }
  set (n := headerLen + dims * 8 + uint32_add datalen padlen - headerLen).
  destruct (ReadFull (rest : BytesReader) n) as [r [got [e|]]] eqn:Hread.
  { do 2 eexists. reflexivity. }
  set (data := header_bytes dims datalen padlen ++ filled (Z.to_nat n) got).
  destruct (parsePoint_in_range (of_list data)
              (mkSlice (filled (Z.to_nat n) got) []) dims datalen padlen)
    as (q & remaining & Hq).
  - unfold data, of_list, header_bytes. rewrite <- !app_assoc.
    apply parsePointHeader_encoded; assumption.
  - rewrite len_mkSlice, length_filled. unfold n. lia.
  - rewrite len_mkSlice, length_filled. unfold n. lia.
  - rewrite len_mkSlice, length_filled. unfold n. lia.
  - rewrite Hq. do 2 eexists. reflexivity.
Qed.

Lemma parsePointFromReader_no_panic_example :
  exists r result,
    parsePointFromReader (header_bytes 1 2 3 ++ repeat Byte.xff 20 : BytesReader)
    = (r, Done result).
Proof.
  apply (parsePointFromReader_no_panic 1 2 3 (repeat Byte.xff 20)).
  - split; [discriminate|reflexivity].
  - split; [discriminate|reflexivity].
  - split; [discriminate|reflexivity].
  - reflexivity.
Defined.

(** The bound of X10 is needed: a header of 13 bytes whose [dataLen] and
    [padLen] sum to 2^32 asks the reader for no body, and [parsePoint]
    then slices 2^32 - 1 bytes of data out of nothing. *)
Lemma parsePointFromReader_wrap_panics :
  parsePointFromReader (header_bytes 0 (2 ^ 32 - 1) 1 : BytesReader)
  = ([], Panicked SliceBoundsOutOfRange).
Proof. vm_compute. reflexivity. Qed.
(** ** A write that fails part of the way *)

Lemma stops_at_failure_step {W} `{Writer W} (t : Tracer W) (bs : list byte)
  (done todo : list (list byte))
  (rest : Tracer W -> Tracer W * option error) :
  calls t = map succeeded done ->
  (forall t1, calls t1 = map succeeded (done ++ [bs]) ->
              stops_at_failure (done ++ [bs]) todo (rest t1)) ->
  stops_at_failure done (bs :: todo) (or_wrap (Write_err t bs) rest).
Proof.
  intros Ht Hrest. unfold or_wrap, Write_err. cbn [Write Tracer_Writer].
  destruct (Write (traced t) bs) as [w1 [n [e|]]].
  - right. exists [], bs, todo, e. cbn [fst snd calls errClass_Wrap app].
    rewrite app_nil_r, Ht. auto.
  - destruct (Hrest (mkTracer w1 (calls t ++ [(bs, None)])))
      as [(Hnone & Hcalls)|(pre & bs' & tail & cause & Htodo & Herr & Hcalls)].
    + cbn [calls]. now rewrite Ht, map_app.
    + left. split; [exact Hnone|]. rewrite Hcalls, <- app_assoc. reflexivity.
    + right. exists (bs :: pre), bs', tail, cause. subst todo.
      split; [reflexivity|]. split; [exact Herr|].
      rewrite Hcalls, <- app_assoc. reflexivity.
Qed.

Lemma stops_at_failure_last {W} `{Writer W} (t : Tracer W) (bs : list byte)
  (done : list (list byte)) :
  calls t = map succeeded done ->
  stops_at_failure done [bs]
    (let '(w, err) := Write_err t bs in (w, errClass_Wrap err)).
Proof.
  intros Ht. unfold Write_err. cbn [Write Tracer_Writer].
  destruct (Write (traced t) bs) as [w1 [n [e|]]].
  - right. exists [], bs, [], e. cbn [fst snd calls errClass_Wrap app].
    rewrite app_nil_r, Ht. auto.
  - left. cbn [fst snd calls errClass_Wrap]. split; [reflexivity|].
    now rewrite Ht, map_app.
Qed.

Lemma concat_record_chunks (p : Point) (maxDataLen : Z) :
  concat (record_chunks p maxDataLen) = record_bytes p maxDataLen.
Proof.
  unfold record_chunks, record_bytes. cbn [concat]. now rewrite app_nil_r.
Qed.

(** X11: [serialize] stops at the first [Write] that fails and returns
    that call's error, wrapped.  Whatever the writer does, when the data
    fits [maxDataLen] the calls of [Write] are made on the slices of the
    record in order (together they are the record).  Either all seven
    return a nil error and [serialize] returns nil; or the calls end with
    the first one that returned an error, every call before it returned
    nil, and [serialize] returns [errClass.Wrap] of the error that call
    returned. *)
Theorem serialize_stops_at_failed_Write {W} `{Writer W} (p : Point) (w : W)
  (maxDataLen : Z) (t' : Tracer W) (err : option error)
  (Hle : len (Data p) <= maxDataLen)
  (Hrun : serialize p (trace w) maxDataLen = (t', err)) :
  concat (record_chunks p maxDataLen) = record_bytes p maxDataLen
  /\ ((err = None
       /\ calls t' = map succeeded (record_chunks p maxDataLen))
      \/ (exists pre bs tail cause,
            record_chunks p maxDataLen = pre ++ bs :: tail
            /\ err = errClass_Wrap (Some cause)
            /\ calls t' = map succeeded pre ++ [(bs, Some cause)])).
Proof.
  split; [apply concat_record_chunks|].
  assert (Hp : stops_at_failure [] (record_chunks p maxDataLen)
                 (serialize p (trace w) maxDataLen)).
  { unfold serialize. rewrite (gtb_le_false _ _ Hle). unfold record_chunks, binary.Write.
    fold (@Write_err (Tracer W) _).
    apply stops_at_failure_step; [reflexivity|]. intros t1 H1.
    apply (stops_at_failure_step t1); [exact H1|]. intros t2 H2.
    apply (stops_at_failure_step t2); [exact H2|]. intros t3 H3.
    apply (stops_at_failure_step t3); [exact H3|]. intros t4 H4.
    apply (stops_at_failure_step t4); [exact H4|]. intros t5 H5.
    apply (stops_at_failure_step t5); [exact H5|]. intros t6 H6.
    apply (stops_at_failure_last t6); exact H6. }
  rewrite Hrun in Hp. exact Hp.
Qed.

(** X11 on a device with room for 20 bytes: the four calls of the header
    go through, the call with the sixteen bytes of the coordinates fails,
    and its error comes back wrapped. *)
Lemma serialize_stops_at_failed_Write_example :
  concat (record_chunks (mkPoint (of_list [one; two]) (of_list [Byte.xaa; Byte.xbb])) 4)
  = record_bytes (mkPoint (of_list [one; two]) (of_list [Byte.xaa; Byte.xbb])) 4
  /\ ((errClass_Wrap (Some (ErrStream "no space left on device"%string)) = None
       /\ calls (fst (serialize (mkPoint (of_list [one; two]) (of_list [Byte.xaa; Byte.xbb]))
                        (trace (mkLimited 20 [])) 4))
          = map succeeded
              (record_chunks (mkPoint (of_list [one; two]) (of_list [Byte.xaa; Byte.xbb])) 4))
      \/ (exists pre bs tail cause,
            record_chunks (mkPoint (of_list [one; two]) (of_list [Byte.xaa; Byte.xbb])) 4
            = pre ++ bs :: tail
            /\ errClass_Wrap (Some (ErrStream "no space left on device"%string))
               = errClass_Wrap (Some cause)
            /\ calls (fst (serialize (mkPoint (of_list [one; two]) (of_list [Byte.xaa; Byte.xbb]))
                             (trace (mkLimited 20 [])) 4))
               = map succeeded pre ++ [(bs, Some cause)])).
Proof.
  apply (serialize_stops_at_failed_Write
           (mkPoint (of_list [one; two]) (of_list [Byte.xaa; Byte.xbb]))
           (mkLimited 20 []) 4).
  - vm_compute. discriminate.
  - vm_compute. reflexivity.
Defined.
(** ** equal as a relation *)

Lemma coords_eqb_Forall2 l1 : forall l2,
  coords_eqb l1 l2 = true <-> Forall2 (fun x y => Float64.eqb y x = true) l1 l2.
Proof.
  induction l1 as [|x l1 IH]; intros [|y l2]; cbn [coords_eqb].
  - split; auto.
  - split; [discriminate|intros H; inversion H].
  - split; [discriminate|intros H; inversion H].
  - rewrite andb_true_iff, IH. split.
    + intros (H1 & H2). now constructor.
    + intros H. inversion H; subst. auto.
Qed.

(** [equal] always returns, and what it returns is [equalb]. *)
Lemma equal_equalb (a b : Point) : equal a b = Done (equalb a b).
Proof.
  unfold equal, equalb.
  destruct (len (Pos a) =? len (Pos b)) eqn:EP; cbn [negb orb andb]; [|reflexivity].
  destruct (len (Data a) =? len (Data b)) eqn:ED; cbn [negb andb]; [|reflexivity].
  apply Z.eqb_eq in EP. destruct b as [[pb sb] db]. cbn [Pos Data elems] in *.
  destruct (equal_range_spec (elems (Pos a)) [] pb sb) as (r & Hr & Hiff).
  { unfold len in EP. cbn [elems] in EP. lia. }
  cbn [app length] in Hr. change (Z.of_nat 0) with 0 in Hr. rewrite Hr. cbn [bind].
  rewrite <- coords_eqb_Forall2 in Hiff.
  destruct r, (coords_eqb (elems (Pos a)) pb); cbn [andb]; try reflexivity.
  - destruct Hiff as (Hiff & _). discriminate (Hiff eq_refl).
  - destruct Hiff as (_ & Hiff). discriminate (Hiff eq_refl).
Qed.

Lemma SFeqb_sym (x y : spec_float) : SFeqb x y = SFeqb y x.
Proof.
  unfold SFeqb, SFcompare.
  destruct x as [s1|s1| |s1 m1 e1]; destruct y as [s2|s2| |s2 m2 e2];
    try reflexivity; try (destruct s1; reflexivity); try (destruct s2; reflexivity);
    try (destruct s1, s2; reflexivity).
  destruct s1, s2; try reflexivity;
    rewrite (Z.compare_antisym e1 e2);
    destruct (e1 ?= e2); cbn [CompOpp]; try reflexivity;
    pose proof (Pos.compare_cont_antisym m1 m2 Eq) as Ha; cbn [CompOpp] in Ha;
    rewrite <- Ha; destruct (Pos.compare_cont Eq m1 m2); reflexivity.
Qed.

(** Two values that compare equal are the same value or two zeros. *)
Lemma SFeqb_true (x y : spec_float) :
  SFeqb x y = true ->
  (x = y /\ x <> S754_nan) \/ (exists s s', x = S754_zero s /\ y = S754_zero s').
Proof.
  unfold SFeqb, SFcompare.
  destruct x as [s1|s1| |s1 m1 e1]; destruct y as [s2|s2| |s2 m2 e2];
    try discriminate; try (destruct s1; discriminate); try (destruct s2; discriminate).
  - intros _. right. eauto.
  - destruct s1, s2; try discriminate; intros _; left; split; congruence.
  - destruct s1, s2; try discriminate;
      destruct (e1 ?= e2) eqn:Ee; try discriminate;
      destruct (Pos.compare_cont Eq m1 m2) eqn:Em; try discriminate;
      intros _; apply Z.compare_eq in Ee; apply Pos.compare_eq in Em; subst;
      left; split; congruence.
Qed.

Lemma SFeqb_trans (x y z : spec_float) :
  SFeqb x y = true -> SFeqb y z = true -> SFeqb x z = true.
Proof.
  intros Hxy Hyz.
  destruct (SFeqb_true x y Hxy) as [(-> & _)|(s & s' & -> & ->)]; [exact Hyz|].
  destruct (SFeqb_true _ z Hyz) as [(<- & _)|(t & t' & _ & ->)]; reflexivity.
Qed.

Lemma coords_eqb_sym l1 : forall l2, coords_eqb l1 l2 = coords_eqb l2 l1.
Proof.
  induction l1 as [|x l1 IH]; intros [|y l2]; cbn [coords_eqb]; auto.
  unfold Float64.eqb. now rewrite SFeqb_sym, IH.
Qed.

Lemma coords_eqb_trans l1 : forall l2 l3,
  coords_eqb l1 l2 = true -> coords_eqb l2 l3 = true -> coords_eqb l1 l3 = true.
Proof.
  induction l1 as [|x l1 IH]; intros [|y l2] [|z l3]; cbn [coords_eqb];
    try discriminate; auto.
  rewrite !andb_true_iff. intros (H1 & H2) (H3 & H4). split; [|eauto].
  unfold Float64.eqb in *. exact (SFeqb_trans _ _ _ H3 H1).
Qed.

Lemma bytes_Equal_sym a b : bytes_Equal a b = bytes_Equal b a.
Proof.
  destruct (bytes_Equal a b) eqn:E1; destruct (bytes_Equal b a) eqn:E2; auto.
  - apply bytes_Equal_eq in E1. subst.
    assert (bytes_Equal b b = true) by now apply bytes_Equal_eq. congruence.
  - apply bytes_Equal_eq in E2. subst.
    assert (bytes_Equal a a = true) by now apply bytes_Equal_eq. congruence.
Qed.

Lemma equalb_true (a b : Point) :
  equalb a b = true <->
  len (Pos a) = len (Pos b) /\ len (Data a) = len (Data b)
  /\ coords_eqb (elems (Pos a)) (elems (Pos b)) = true
  /\ elems (Data a) = elems (Data b).
Proof.
  unfold equalb. rewrite !andb_true_iff, !Z.eqb_eq, bytes_Equal_eq. tauto.
Qed.

(** X12: [equal] is symmetric: [a.equal(b)] and [b.equal(a)] return the
    same answer, for all points. *)
Theorem equal_symmetric (a b : Point) : equal a b = equal b a.
Proof.
  rewrite !equal_equalb. f_equal. unfold equalb.
  rewrite (Z.eqb_sym (len (Pos a))), (Z.eqb_sym (len (Data a))).
  now rewrite coords_eqb_sym, bytes_Equal_sym.
Qed.

(** X13: [equal] is transitive: when [a.equal(b)] and [b.equal(c)] are
    true, so is [a.equal(c)]. *)
Theorem equal_transitive (a b c : Point)
  (Hab : equal a b = Done true) (Hbc : equal b c = Done true) :
  equal a c = Done true.
Proof.
  rewrite equal_equalb in *. injection Hab as Hab. injection Hbc as Hbc.
  f_equal. apply equalb_true in Hab, Hbc. apply equalb_true.
  destruct Hab as (H1 & H2 & H3 & H4). destruct Hbc as (H5 & H6 & H7 & H8).
  repeat split; try congruence. eauto using coords_eqb_trans.
Qed.

Lemma equal_transitive_example :
  equal (mkPoint (of_list [pos_zero; one]) (of_list [Byte.x01]))
        (mkPoint (mkSlice [neg_zero; one] [two]) (of_list [Byte.x01])) = Done true.
Proof.
  apply (equal_transitive _
           (mkPoint (of_list [neg_zero; one]) (mkSlice [Byte.x01] [Byte.x02])));
    vm_compute; reflexivity.
Defined.

Lemma coords_eqb_refl_iff l :
  coords_eqb l l = true <-> Forall (fun x => isNaN x = false) l.
Proof.
  induction l as [|x l IH]; cbn [coords_eqb].
  - split; auto.
  - rewrite andb_true_iff, IH. split.
    + intros (Hx & Hl). constructor; [|exact Hl].
      unfold Float64.eqb, isNaN in *. destruct (value x); auto; discriminate.
    + intros H. inversion H; subst. split; [now apply eqb_refl|assumption].
Qed.

(** X14: a point is [equal] to itself exactly when none of its
    coordinates is a NaN. *)
Theorem equal_reflexive_iff_no_NaN (p : Point) :
  equal p p = Done true <-> no_NaN p.
Proof.
  rewrite equal_equalb. unfold no_NaN. rewrite <- coords_eqb_refl_iff. split.
  - intros [= H]. apply equalb_true in H. tauto.
  - intros H. f_equal. apply equalb_true. auto.
Qed.

(** ** equal and distanceSquared together *)

Lemma square_sub_eqb (x y : spec_float) :
  finite_value x -> SFeqb y x = true ->
  square (Float64.sub x y) = Float64.zero.
Proof.
  intros Hx Heq.
  destruct (SFeqb_true y x Heq) as [(-> & _)|(s & s' & -> & ->)].
  - now apply square_sub_self.
  - destruct s, s'; reflexivity.
Qed.

Lemma sum_squares_eqb l1 : forall l2,
  Forall (fun x => isFinite x = true) l1 ->
  coords_eqb l1 l2 = true ->
  sum_squares l1 l2 Float64.zero = Float64.zero.
Proof.
  induction l1 as [|x l1 IH]; intros [|y l2] Hfin; cbn [coords_eqb sum_squares];
    try discriminate; auto.
  rewrite andb_true_iff. intros (Hxy & Hl). inversion Hfin; subst.
  fold (square (Float64.sub (value x) (value y))).
  rewrite square_sub_eqb by (auto using isFinite_value).
  now apply IH.
Qed.

(** X15: two points that are [equal] are at distance zero, when the
    coordinates are finite: if [a.equal(b)] is true and every coordinate
    of [a] is finite, [a.distanceSquared(b)] is +0. *)
Theorem equal_points_distance_zero (a b : Point)
  (Heq : equal a b = Done true) (Hfin : all_finite a) :
  distanceSquared a b = Done Float64.zero.
Proof.
  rewrite equal_equalb in Heq. injection Heq as Heq.
  apply equalb_true in Heq. destruct Heq as (HP & _ & Hc & _).
  rewrite (distanceSquared_same_length a b HP). f_equal.
  now apply sum_squares_eqb.
Qed.

Lemma equal_points_distance_zero_example :
  distanceSquared (mkPoint (of_list [pos_zero; one]) (of_list [Byte.x01]))
                  (mkPoint (of_list [neg_zero; one]) (of_list [Byte.x01]))
  = Done Float64.zero.
Proof.
  apply equal_points_distance_zero.
  - vm_compute. reflexivity.
  - repeat constructor.
Defined.

Lemma nonneg_value_leb v : nonneg_value v -> SFleb Float64.zero v = true.
Proof.
  destruct v as [s|s| |s m e]; cbn [nonneg_value]; intros H; subst;
    try reflexivity. contradiction.
Qed.

(** X16: a squared distance is not negative.  For two points of the same
    dimension whose coordinates are all finite, [distanceSquared] returns
    a value [v] with [0 <= v]: never a negative number and never a NaN
    (it is +Inf when the sum overflows). *)
Theorem distanceSquared_nonnegative (a b : Point)
  (Hlen : len (Pos a) = len (Pos b))
  (Ha : all_finite a) (Hb : all_finite b) :
  exists v, distanceSquared a b = Done v /\ SFleb Float64.zero v = true.
Proof.
  rewrite (distanceSquared_same_length a b Hlen). eexists. split; [reflexivity|].
  apply nonneg_value_leb, sum_squares_nonneg; auto. exact I.
Qed.

Lemma distanceSquared_nonnegative_example :
  exists v,
    distanceSquared (mkPoint (of_list [one; two]) nil_slice)
                    (mkPoint (of_list [two; pos_zero]) nil_slice) = Done v
    /\ SFleb Float64.zero v = true.
Proof.
  apply distanceSquared_nonnegative.
  - reflexivity.
  - repeat constructor.
  - repeat constructor.
Defined.
(** ** Scanning a stream of records to its end *)

Lemma parsePointsFromReader_S {R} `{Reader R} (n : nat) (r : R) :
  parsePointsFromReader (S n) r
  = let '(r', res) := parsePointFromReader r in
    match res with
    | Panicked p => (r', Panicked p)
    | Done (_, _, Some e) => (r', Done ([], Some e))
    | Done (q, m, None) =>
        let '(r'', res') := parsePointsFromReader n r' in
        match res' with
        | Panicked p => (r'', Panicked p)
        | Done (qs, err) => (r'', Done ((q, m) :: qs, err))
        end
    end.
Proof. reflexivity. Qed.

(** X17: scanning to the end.  On a stream made of the records of [N]
    points that fit [maxDataLen], [parsePointFromReader] called [N + 1]
    times returns the [N] points in order, with their coordinate patterns
    and data and with [maxDataLen] reported for each, and then [EOF]: the
    end of the records is the clean end of input, not an unexpected one. *)
Theorem scan_records_to_EOF (maxDataLen : Z) (ps : list Point)
  (Hfits : Forall (fits maxDataLen) ps) :
  exists qs,
    parsePointsFromReader (S (length ps))
      (concat (map (encode maxDataLen) ps) : BytesReader)
    = ([], Done (qs, Some EOF))
    /\ Forall2 (fun qm p => elems (Pos (fst qm)) = elems (Pos p)
                            /\ elems (Data (fst qm)) = elems (Data p)
                            /\ snd qm = maxDataLen) qs ps.
Proof.
  induction ps as [|p ps IH].
  - exists []. split; [reflexivity|constructor].
  - inversion Hfits as [|? ? Hp Hps]; subst.
    destruct (IH Hps) as (qs & Hqs & Hall).
    destruct (parsePointFromReader_roundtrip p maxDataLen
                (concat (map (encode maxDataLen) ps)) Hp)
      as (q & Hq & HP & HD & _).
    exists ((q, maxDataLen) :: qs).
    cbn [length map concat].
    rewrite parsePointsFromReader_S.
    rewrite Hq. cbv iota beta. rewrite Hqs. split; [reflexivity|].
    constructor; [|exact Hall]. cbn [fst snd]. auto.
Qed.

Lemma scan_records_to_EOF_example :
  exists qs,
    parsePointsFromReader 3
      (concat (map (encode 3)
         [mkPoint (of_list [one; two]) (of_list [Byte.xaa; Byte.xbb]);
          mkPoint (of_list [two]) (of_list [])]) : BytesReader)
    = ([], Done (qs, Some EOF))
    /\ Forall2 (fun qm p => elems (Pos (fst qm)) = elems (Pos p)
                            /\ elems (Data (fst qm)) = elems (Data p)
                            /\ snd qm = 3) qs
         [mkPoint (of_list [one; two]) (of_list [Byte.xaa; Byte.xbb]);
          mkPoint (of_list [two]) (of_list [])].
Proof.
  apply (scan_records_to_EOF 3
           [mkPoint (of_list [one; two]) (of_list [Byte.xaa; Byte.xbb]);
            mkPoint (of_list [two]) (of_list [])]).
  repeat (apply Forall_cons; [apply fitsb_fits; vm_compute; reflexivity|]).
  apply Forall_nil.
Defined.
